(** * CATculator: the molecular-formula search engine of [models/base.py]

    A shallow embedding of the five functions of [src/models/base.py]
    ([calculate_mass], [calculate_unsaturation], [is_valid_formula],
    [generate_formulas], [find_molecular_formulas]) and the properties
    stated about them.

    Conventions of the embedding:
    - Python [int] is [Z]; Python [float] is read as an exact rational
      [Q] (rounding, infinities and NaN are outside this model);
    - a Python [dict] whose iteration order is observed ([atomRanges],
      a formula) is an insertion-ordered association list ([dict]); its
      keys are pairwise distinct, which is the hypothesis [NoDup (keys d)]
      where a proof needs it; a [dict] that is only indexed (the mass
      table, the valence table) is a [gmap];
    - an exception is a value of [exn]; a function that may raise returns
      a [result];
    - a generator is a finite sequence of yields ended by exhaustion or by
      an exception ([gen]); its consumer walks it in order, so the
      interleaving of generator body and loop body is the one of Python;
    - [print] appends one record to the output of the call. *)

From Stdlib Require Import QArith Qabs ZArith Lia Sorted Permutation.
From stdpp Require Import gmap strings list pretty sorting.

Local Open Scope Z_scope.

(** ** Python dictionaries with observable order *)

Module Dict.

Definition dict (V : Type) : Type := list (string * V).

Definition keys {V} (d : dict V) : list string := d.*1.
Definition values {V} (d : dict V) : list V := d.*2.
Definition items {V} (d : dict V) : list (string * V) := d.

(** [d.get(k)]: the value stored under [k], if any. *)
Fixpoint lookup {V} (d : dict V) (k : string) : option V :=
  match d with
  | [] => None
  | (k', v) :: rest => if String.eqb k k' then Some v else lookup rest k
  end.

(** [d.get(k, dflt)]. *)
Definition get {V} (d : dict V) (k : string) (dflt : V) : V :=
  default dflt (lookup d k).

(** [d[k] = v]: overwrite in place when [k] is present, append otherwise. *)
Fixpoint set {V} (d : dict V) (k : string) (v : V) : dict V :=
  match d with
  | [] => [(k, v)]
  | (k', v') :: rest =>
      if String.eqb k k' then (k', v) :: rest else (k', v') :: set rest k v
  end.

(** [{k: v for k, v in pairs}]. *)
Definition of_items {V} (pairs : list (string * V)) : dict V :=
  fold_left (fun d kv => set d kv.1 kv.2) pairs [].

End Dict.

Import Dict.

(** ** Exceptions, results, generators, output *)

Inductive exn : Type :=
  | KeyError (k : string)
  | ZeroDivisionError.

Inductive result (A : Type) : Type :=
  | Ok (a : A)
  | Raise (e : exn).
Arguments Ok {A} a.
Arguments Raise {A} e.

Inductive gen (A : Type) : Type :=
  | GDone
  | GYield (a : A) (rest : gen A)
  | GRaise (e : exn).
Arguments GDone {A}.
Arguments GYield {A} a rest.
Arguments GRaise {A} e.

(** One argument of a [print] call. *)
Inductive pyval : Type :=
  | PStr (s : string)
  | PNum (q : Q).

(** The output of a call: one list of arguments per [print]. *)
Definition output : Type := list (list pyval).

(** ** Builtins *)

(** [range(start, stop)]. *)
Definition range (start stop : Z) : list Z := seqZ start (stop - start).

(** [itertools.product] applied to the lists [ls]: the rightmost component
    varies fastest;
    the product of no component is the single empty tuple. *)
Fixpoint product {A} (ls : list (list A)) : list (list A) :=
  match ls with
  | [] => [[]]
  | l :: rest => flat_map (fun x => map (cons x) (product rest)) l
  end.

(** [sum(l)] over integers. *)
Definition sum_Z (l : list Z) : Z := fold_left Z.add l 0.

(** Float division [a / b]. *)
Definition py_div (a b : Q) : result Q :=
  if Qeq_bool b 0 then Raise ZeroDivisionError else Ok (a / b)%Q.

(** [l.sort(key=key)]: Python's sort is stable; insertion into the
    sorted tail, in front of the first element whose key is not smaller,
    computes the same list as any stable sort. *)
Section Sort.
Context {A : Type} (key : A -> Q).

Fixpoint insert_by_key (x : A) (l : list A) : list A :=
  match l with
  | [] => [x]
  | y :: rest =>
      if Qle_bool (key x) (key y) then x :: y :: rest
      else y :: insert_by_key x rest
  end.

Fixpoint sort_by_key (l : list A) : list A :=
  match l with
  | [] => []
  | x :: rest => insert_by_key x (sort_by_key rest)
  end.

(** The order of the keys. *)
Definition key_le (a b : A) : Prop := (key a <= key b)%Q.

(** The elements of key [q], as a subsequence. *)
Definition with_key (q : Q) (l : list A) : list A :=
  List.filter (fun a => Qeq_bool (key a) q) l.
End Sort.

(** ** [models/base.py] *)

Definition formula : Type := dict Z.

(** [sum(monoisotopiqueMasses[el] * count for el, count in items)],
    with the running total [acc]; the lookup of an absent symbol raises. *)
Fixpoint sum_masses (monoisotopiqueMasses : gmap string Q)
    (its : list (string * Z)) (acc : Q) : result Q :=
  match its with
  | [] => Ok acc
  | (el, count) :: rest =>
      match monoisotopiqueMasses !! el with
      | None => Raise (KeyError el)
      | Some m => sum_masses monoisotopiqueMasses rest (acc + m * inject_Z count)%Q
      end
  end.

Definition calculate_mass (f : formula) (monoisotopiqueMasses : gmap string Q)
    : result Q :=
  sum_masses monoisotopiqueMasses (items f) 0%Q.

Definition calculate_unsaturation (f : formula) : Q :=
  let C := get f "C" 0 in
  let H := get f "H" 0 in
  let N := get f "N" 0 in
  let F := get f "F" 0 in
  let Cl := get f "Cl" 0 in
  let Br := get f "Br" 0 in
  let I := get f "I" 0 in
  let X := F + Cl + Br + I in
  (inject_Z C - inject_Z (H + X) / 2 + inject_Z N / 2 + 1)%Q.

Definition valency : gmap string Z :=
  list_to_map
    [("C", 4); ("H", 1); ("N", 3); ("O", 2); ("S", 2);
     ("F", 1); ("Cl", 7); ("Br", 7); ("I", 7)].

(** [sum(valency[el] * count for el, count in items)]. *)
Fixpoint sum_valencies (its : list (string * Z)) (acc : Z) : result Z :=
  match its with
  | [] => Ok acc
  | (el, count) :: rest =>
      match valency !! el with
      | None => Raise (KeyError el)
      | Some v => sum_valencies rest (acc + v * count)
      end
  end.

Definition is_valid_formula (f : formula) : result bool :=
  let totalBonds :=
    4 * get f "C" 0 + 1 * get f "H" 0 + 3 * get f "N" 0 +
    2 * get f "O" 0 + 2 * get f "S" 0 + 1 * get f "F" 0 +
    7 * get f "Cl" 0 + 7 * get f "Br" 0 + 7 * get f "I" 0 in
  match sum_valencies (items f) 0 with
  | Raise e => Raise e
  | Ok maxPossibleBonds => Ok (totalBonds <=? maxPossibleBonds)
  end.

(** The [ranges] list of [generate_formulas]: one [range(min, max + 1)]
    per entry of [atomRanges], in key order. *)
Definition ranges_of (atomRanges : dict (Z * Z)) : list (list Z) :=
  map (fun e => range e.2.1 (e.2.2 + 1)) (items atomRanges).

(** The [for combo in product(...)] loop over the remaining [combos]. *)
Fixpoint generate_loop (ks : list string) (monoisotopiqueMasses : gmap string Q)
    (minMass maxMass : Q) (maxTotalAtoms : Z) (combos : list (list Z))
    : gen formula :=
  match combos with
  | [] => GDone
  | combo :: rest =>
      let f := of_items (zip ks combo) in
      let totalAtoms := sum_Z (values f) in
      if (totalAtoms =? 0) || (totalAtoms >? maxTotalAtoms) then
        generate_loop ks monoisotopiqueMasses minMass maxMass maxTotalAtoms rest
      else
        match calculate_mass f monoisotopiqueMasses with
        | Raise e => GRaise e
        | Ok mass =>
            if Qle_bool minMass mass && Qle_bool mass maxMass then
              GYield f (generate_loop ks monoisotopiqueMasses minMass maxMass
                          maxTotalAtoms rest)
            else
              generate_loop ks monoisotopiqueMasses minMass maxMass
                maxTotalAtoms rest
        end
  end.

Definition generate_formulas (atomRanges : dict (Z * Z))
    (monoisotopiqueMasses : gmap string Q) (minMass maxMass : Q)
    (maxTotalAtoms : Z) : gen formula :=
  let ranges := ranges_of atomRanges in
  generate_loop (keys atomRanges) monoisotopiqueMasses minMass maxMass
    maxTotalAtoms (product ranges).

(** The default of the [maxTotalAtoms] parameter. *)
Definition default_maxTotalAtoms : Z := 150.

(** One entry of [possible_formulas]. *)
Record candidate : Type := Candidate {
  c_formula : formula;
  c_mass : Q;
  c_mz : Q;
  c_deviation : Q;
  c_unsaturation : Q
}.

(** The [for formula in generate_formulas(...)] loop of
    [find_molecular_formulas]; [possible_formulas] is the list being
    appended to. *)
Fixpoint collect (exactMass ionization : Q)
    (monoisotopiqueMasses : gmap string Q) (unsaturationRange : Q * Q)
    (g : gen formula) (possible_formulas : list candidate)
    : result (list candidate) :=
  match g with
  | GDone => Ok possible_formulas
  | GRaise e => Raise e
  | GYield f rest =>
      match calculate_mass f monoisotopiqueMasses with
      | Raise e => Raise e
      | Ok mass =>
          let unsaturation := calculate_unsaturation f in
          if Qle_bool unsaturationRange.1 unsaturation
             && Qle_bool unsaturation unsaturationRange.2 then
            match py_div (exactMass - mass)%Q mass with
            | Raise e => Raise e
            | Ok q =>
                let deviationppm := (q * 1000000)%Q in
                let mz := (mass + ionization)%Q in
                collect exactMass ionization monoisotopiqueMasses
                  unsaturationRange rest
                  (possible_formulas ++
                     [Candidate f mass mz deviationppm unsaturation])
            end
          else
            collect exactMass ionization monoisotopiqueMasses
              unsaturationRange rest possible_formulas
      end
  end.

Definition newline : string := String (Ascii.ascii_of_nat 10) EmptyString.

(** The line printed by [find_molecular_formulas]. *)
Definition mass_range_line (minMass maxMass : Q) : list pyval :=
  [PStr (newline +:+ "Mass range from the expected value:"); PStr "[";
   PNum minMass; PStr ","; PNum maxMass; PStr "]"].

Definition abs_deviation (c : candidate) : Q := Qabs (c_deviation c).

Definition find_molecular_formulas (targetMass ppmTolerance : Q)
    (atomRanges : dict (Z * Z)) (monoisotopiqueMasses : gmap string Q)
    (ionization : Q) (unsaturationRange : Q * Q)
    : output * result (list candidate) :=
  let tolerance := (ppmTolerance / 1000000)%Q in
  let exactMass := (targetMass - ionization)%Q in
  let minMass := (exactMass - tolerance * exactMass)%Q in
  let maxMass := (exactMass + tolerance * exactMass)%Q in
  let out := [mass_range_line minMass maxMass] in
  match
    collect exactMass ionization monoisotopiqueMasses unsaturationRange
      (generate_formulas atomRanges monoisotopiqueMasses minMass maxMass
         default_maxTotalAtoms) []
  with
  | Raise e => (out, Raise e)
  | Ok possible_formulas => (out, Ok (sort_by_key abs_deviation possible_formulas))
  end.

(** ** Definitions used to state the properties *)

(** The formulas yielded by a generator, in order, up to its end or to
    the exception that ends it. *)
Fixpoint gen_yields {A} (g : gen A) : list A :=
  match g with
  | GDone => []
  | GYield a rest => a :: gen_yields rest
  | GRaise _ => []
  end.

(** The generator that yields the elements of [l] and ends normally. *)
Fixpoint gen_of_list {A} (l : list A) : gen A :=
  match l with
  | [] => GDone
  | a :: rest => GYield a (gen_of_list rest)
  end.

(** Count of element [e] in a formula, an absent element counting 0. *)
Definition count (f : formula) (e : string) : Z :=
  match lookup f e with
  | Some n => n
  | None => 0
  end.

Definition total_atoms (f : formula) : Z := sum_Z (values f).

(** The points of the Cartesian product of the ranges, as formulas, in
    enumeration order. *)
Definition search_space (atomRanges : dict (Z * Z)) : list formula :=
  map (fun combo => zip (keys atomRanges) combo) (product (ranges_of atomRanges)).

(** [f] has the keys of [atomRanges], in the same order, each with a count
    inside the inclusive bounds of its key. *)
Definition within_ranges (atomRanges : dict (Z * Z)) (f : formula) : Prop :=
  Forall2 (fun e kv => kv.1 = e.1 /\ e.2.1 <= kv.2 <= e.2.2) atomRanges f.

(** The mass of [f] is defined and lies in [[minMass, maxMass]]. *)
Definition mass_in_window (monoisotopiqueMasses : gmap string Q)
    (minMass maxMass : Q) (f : formula) : bool :=
  match calculate_mass f monoisotopiqueMasses with
  | Ok m => Qle_bool minMass m && Qle_bool m maxMass
  | Raise _ => false
  end.

(** The three conditions a yielded formula must meet. *)
Definition admissible (monoisotopiqueMasses : gmap string Q)
    (minMass maxMass : Q) (maxTotalAtoms : Z) (f : formula) : bool :=
  (0 <? total_atoms f) && (total_atoms f <=? maxTotalAtoms)
  && mass_in_window monoisotopiqueMasses minMass maxMass f.

(** The double-bond equivalent as the formula sheet gives it. *)
Definition dbe (C H N X : Z) : Q :=
  (inject_Z C - (inject_Z H + inject_Z X) / 2 + inject_Z N / 2 + 1)%Q.

(** The first key without an entry in the mass table, if any. *)
Fixpoint first_missing (monoisotopiqueMasses : gmap string Q)
    (ks : list string) : option string :=
  match ks with
  | [] => None
  | k :: rest =>
      match monoisotopiqueMasses !! k with
      | None => Some k
      | Some _ => first_missing monoisotopiqueMasses rest
      end
  end.

(** The test that lets a formula of [n] atoms reach the mass computation. *)
Definition passes_atom_filter (maxTotalAtoms n : Z) : bool :=
  negb ((n =? 0) || (n >? maxTotalAtoms)).

(** What the loop records for a formula it keeps. *)
Definition scored (exactMass ionization : Q) (ms : gmap string Q)
    (unsaturationRange : Q * Q) (c : candidate) : Prop :=
  calculate_mass (c_formula c) ms = Ok (c_mass c)
  /\ ~ (c_mass c == 0)%Q
  /\ c_mz c = (c_mass c + ionization)%Q
  /\ c_deviation c = ((exactMass - c_mass c) / c_mass c * 1000000)%Q
  /\ c_unsaturation c = calculate_unsaturation (c_formula c)
  /\ (unsaturationRange.1 <= c_unsaturation c)%Q
  /\ (c_unsaturation c <= unsaturationRange.2)%Q.

(** The mass window of a search. *)
Definition mass_window (targetMass ppmTolerance ionization : Q) : Q * Q :=
  let exactMass := (targetMass - ionization)%Q in
  ((exactMass - ppmTolerance / 1000000 * exactMass)%Q,
   (exactMass + ppmTolerance / 1000000 * exactMass)%Q).

(** The accepted candidates in enumeration order, as they stand just
    before the final sort. *)
Definition enumeration_order (targetMass ppmTolerance : Q)
    (atomRanges : dict (Z * Z)) (ms : gmap string Q) (ionization : Q)
    (ur : Q * Q) : result (list candidate) :=
  collect (targetMass - ionization)%Q ionization ms ur
    (generate_formulas atomRanges ms
       (mass_window targetMass ppmTolerance ionization).1
       (mass_window targetMass ppmTolerance ionization).2
       default_maxTotalAtoms) [].

(** The bond count of the left-hand side of the comparison. *)
Definition total_bonds (f : formula) : Z :=
  4 * get f "C" 0 + 1 * get f "H" 0 + 3 * get f "N" 0 +
  2 * get f "O" 0 + 2 * get f "S" 0 + 1 * get f "F" 0 +
  7 * get f "Cl" 0 + 7 * get f "Br" 0 + 7 * get f "I" 0.

(** ** Sample inputs *)

(** The mass table and the ranges of the carbon and hydrogen scenario. *)
Definition masses_CH : gmap string Q :=
  list_to_map [("C", 12%Q); ("H", (1007825035 # 1000000000)%Q)].

Definition ranges_CH : dict (Z * Z) := [("C", (0, 2)); ("H", (0, 4))].

(** Ranges over an element, sodium, that [masses_CH] does not have. *)
Definition ranges_CNa : dict (Z * Z) := [("C", (0, 1)); ("Na", (0, 1))].

Definition ranges_CNa_zero : dict (Z * Z) := [("C", (0, 0)); ("Na", (0, 0))].

(** Ranges with an entry whose minimum is above its maximum. *)
Definition ranges_inverted : dict (Z * Z) := [("C", (2, 1))].

Definition ranges_C_inverted_H : dict (Z * Z) := [("C", (0, 2)); ("H", (4, 0))].

Definition methane : formula := [("C", 1); ("H", 4)].
Definition oxygen : formula := [("O", 2)].
Definition sodium_methoxide : formula := [("C", 1); ("H", 3); ("O", 1); ("Na", 1)].

(** ** [molecularFormula.py] *)

(** [l[i]] on a list: a negative index counts from the end; [None] is
    Python's [IndexError]. *)
Definition py_getitem {A} (l : list A) (i : Z) : option A :=
  let n := Z.of_nat (length l) in
  let j := if i <? 0 then i + n else i in
  if (j <? 0) || (n <=? j) then None else l !! Z.to_nat j.

(** The string shown for a formula: each element with a count above 0,
    followed by that count, in key order. *)
Fixpoint formula_str (its : list (string * Z)) : string :=
  match its with
  | [] => ""
  | (element, count) :: rest =>
      if 0 <? count then element +:+ pretty count +:+ formula_str rest
      else formula_str rest
  end.

(** What the script holds in [formulas] when it reaches the display. *)
Inductive script_result : Type :=
  | Formulas (formulas : list candidate)
  | IndexError
  | Uncaught (e : exn).

Module MolecularFormula.

Definition atomRanges : dict (Z * Z) :=
  [("C", (0, 50)); ("H", (0, 100)); ("N", (0, 20)); ("O", (0, 30));
   ("S", (0, 5)); ("F", (0, 0)); ("Br", (0, 0)); ("Cl", (0, 0)); ("I", (0, 0))].

Definition unsaturationRange : Q * Q := (0, 100)%Q.

Definition monoisotopicMasses : gmap string Q :=
  list_to_map
    [("H", 1.007825035%Q); ("C", 12.0000000%Q); ("N", 14.003074%Q);
     ("O", 15.99491463%Q); ("S", 31.9720707%Q); ("F", 18.99840322%Q);
     ("Br", 78.9183361%Q); ("Cl", 34.96885272%Q); ("I", 126.904473%Q)].

Definition ionizationCases : dict Q :=
  [("+", 0%Q); ("H+", 1.007276%Q); ("(H+)*2", (2 * 1.007276)%Q);
   ("(H+)*3", (3 * 1.007276)%Q); ("-", (- 1.007276)%Q);
   ("(-)*2", (2 * - 1.007276)%Q)].

(** [ionizationName] and [ionizationValue] for the number the user typed. *)
Definition select_ionization (cases : dict Q) (ionizationChoice : Z)
    : option (string * Q) :=
  match py_getitem (keys cases) (ionizationChoice - 1) with
  | None => None
  | Some ionizationName =>
      match lookup cases ionizationName with
      | None => None
      | Some ionizationValue => Some (ionizationName, ionizationValue)
      end
  end.

(** The script from the parsed inputs to the list it displays: selection
    of the ionization, search with the shipped parameters, second sort. *)
Definition main (targetMass accuracyppm : Q) (ionizationChoice : Z)
    : script_result :=
  match select_ionization ionizationCases ionizationChoice with
  | None => IndexError
  | Some (ionizationName, ionizationValue) =>
      match
        (find_molecular_formulas targetMass accuracyppm atomRanges
           monoisotopicMasses ionizationValue unsaturationRange).2
      with
      | Raise e => Uncaught e
      | Ok formulas => Formulas (sort_by_key abs_deviation formulas)
      end
  end.

End MolecularFormula.

(** ** Further definitions used to state properties *)

(** Lexicographic order on tuples of counts. *)
Inductive lex_lt : list Z -> list Z -> Prop :=
  | lex_lt_head x y t1 t2 : x < y -> lex_lt (x :: t1) (y :: t2)
  | lex_lt_tail x t1 t2 : lex_lt t1 t2 -> lex_lt (x :: t1) (x :: t2).

(** The number of points of the Cartesian product of the ranges. *)
Fixpoint space_size (atomRanges : dict (Z * Z)) : nat :=
  match atomRanges with
  | [] => 1
  | e :: rest => (Z.to_nat (e.2.2 + 1 - e.2.1) * space_size rest)%nat
  end.

(** The unsaturation of [f] is inside the inclusive range [ur]. *)
Definition unsaturation_in_range (ur : Q * Q) (f : formula) : bool :=
  Qle_bool ur.1 (calculate_unsaturation f)
  && Qle_bool (calculate_unsaturation f) ur.2.

(** ** Dictionaries *)

Module DictFacts.

Lemma lookup_absent {V} (d : dict V) k : k ∉ keys d -> lookup d k = None.
Proof.
  induction d as [|[k' v] d IH]; simpl; [done|].
  intros Hk. apply not_elem_of_cons in Hk as [Hne Hk].
  destruct (String.eqb_spec k k'); [done|]. by apply IH.
Qed.

Lemma lookup_present {V} (d : dict V) k v :
  NoDup (keys d) -> (k, v) ∈ d -> lookup d k = Some v.
Proof.
  induction d as [|[k' v'] d IH]; simpl; intros Hnd Hin.
  - by apply elem_of_nil in Hin.
  - apply NoDup_cons in Hnd as [Hk' Hnd].
    apply elem_of_cons in Hin as [Heq|Hin].
    + inversion Heq; subst. by rewrite String.eqb_refl.
    + destruct (String.eqb_spec k k') as [->|_]; [|by apply IH].
      exfalso. apply Hk'. unfold keys. apply list_elem_of_fmap.
      by exists (k', v).
Qed.

Lemma set_fresh {V} (d : dict V) k v : k ∉ keys d -> set d k v = d ++ [(k, v)].
Proof.
  induction d as [|[k' v'] d IH]; simpl; [done|].
  intros Hk. apply not_elem_of_cons in Hk as [Hne Hk].
  destruct (String.eqb_spec k k'); [done|]. by rewrite IH.
Qed.

Lemma fold_set_fresh {V} (pairs : list (string * V)) (d : dict V) :
  NoDup (keys d ++ pairs.*1) ->
  fold_left (fun d kv => set d kv.1 kv.2) pairs d = d ++ pairs.
Proof.
  revert d. induction pairs as [|[k v] pairs IH]; intros d Hnd; simpl.
  - by rewrite app_nil_r.
  - simpl in Hnd. rewrite set_fresh.
    + rewrite IH.
      * by rewrite <- app_assoc.
      * unfold keys in *. rewrite fmap_app. simpl. by rewrite <- app_assoc.
    + apply NoDup_app in Hnd as (_ & Hdisj & _).
      intros Hin. apply (Hdisj k Hin). apply elem_of_cons. by left.
Qed.

(** A comprehension over pairs with distinct keys stores them as given. *)
Lemma of_items_distinct {V} (pairs : list (string * V)) :
  NoDup pairs.*1 -> of_items pairs = pairs.
Proof. intros Hnd. unfold of_items. by rewrite fold_set_fresh. Qed.

End DictFacts.

Import DictFacts.

(** ** Ranges, products and sums *)

Lemma elem_of_range (x start stop : Z) : x ∈ range start stop <-> start <= x < stop.
Proof. unfold range. rewrite elem_of_seqZ. lia. Qed.

Lemma range_empty (start stop : Z) : stop <= start -> range start stop = [].
Proof.
  intros H. unfold range. destruct (seqZ start (stop - start)) as [|x l] eqn:E; [done|].
  assert (Hx : x ∈ seqZ start (stop - start)) by (rewrite E; left).
  apply elem_of_seqZ in Hx. lia.
Qed.

Lemma elem_of_product {A} (ls : list (list A)) (t : list A) :
  t ∈ product ls <-> Forall2 (fun x l => x ∈ l) t ls.
Proof.
  revert t. induction ls as [|l ls IH]; intros t; simpl.
  - rewrite list_elem_of_singleton. split.
    + intros ->. constructor.
    + by inversion 1.
  - rewrite list_elem_of_In, in_flat_map. split.
    + intros (x & Hx & Ht). apply in_map_iff in Ht as (t' & <- & Ht').
      constructor.
      * by apply list_elem_of_In.
      * apply IH. by apply list_elem_of_In.
    + inversion 1 as [|x l' t' ls' Hx Ht']; subst.
      exists x. split; [by apply list_elem_of_In|].
      apply in_map_iff. exists t'. split; [done|].
      apply list_elem_of_In. by apply IH.
Qed.

Lemma product_with_empty {A} (ls : list (list A)) : [] ∈ ls -> product ls = [].
Proof.
  induction ls as [|l ls IH]; intros Hin.
  - by apply elem_of_nil in Hin.
  - apply elem_of_cons in Hin as [<-|Hin]; simpl; [done|].
    rewrite (IH Hin). by induction l.
Qed.

Lemma product_length {A} (ls : list (list A)) (t : list A) :
  t ∈ product ls -> length t = length ls.
Proof. intros H. apply elem_of_product in H. by eapply Forall2_length. Qed.

Lemma fold_add_shift (l : list Z) (a : Z) : fold_left Z.add l a = a + sum_Z l.
Proof.
  unfold sum_Z. revert a. induction l as [|x l IH]; intros a; simpl; [lia|].
  rewrite (IH (a + x)), (IH (0 + x)). lia.
Qed.

Lemma sum_Z_cons (x : Z) (l : list Z) : sum_Z (x :: l) = x + sum_Z l.
Proof. unfold sum_Z at 1. simpl. by rewrite fold_add_shift. Qed.

Lemma sum_Z_nonneg (l : list Z) : Forall (fun x => 0 <= x) l -> 0 <= sum_Z l.
Proof.
  induction 1 as [|x l Hx _ IH]; [done|]. rewrite sum_Z_cons. lia.
Qed.

(** ** The formula built from one point of the product *)

Lemma zip_keys_values (ks : list string) (combo : list Z) :
  length combo = length ks ->
  keys (zip ks combo) = ks /\ values (zip ks combo) = combo.
Proof.
  intros Hlen. unfold keys, values. split.
  - apply fst_zip. lia.
  - apply snd_zip. lia.
Qed.

Lemma formula_of_combo (ks : list string) (combo : list Z) :
  NoDup ks -> length combo = length ks ->
  of_items (zip ks combo) = zip ks combo.
Proof.
  intros Hnd Hlen. apply of_items_distinct.
  destruct (zip_keys_values ks combo Hlen) as [Hk _].
  unfold keys in Hk. by rewrite Hk.
Qed.

Lemma ranges_of_length (atomRanges : dict (Z * Z)) :
  length (ranges_of atomRanges) = length (keys atomRanges).
Proof. unfold ranges_of, keys, items. by rewrite length_map, length_fmap. Qed.

(** A point of the product, zipped with the keys, is a formula within the
    ranges, and conversely. *)
Lemma within_ranges_zip (atomRanges : dict (Z * Z)) (combo : list Z) :
  combo ∈ product (ranges_of atomRanges) ->
  within_ranges atomRanges (zip (keys atomRanges) combo).
Proof.
  rewrite elem_of_product. unfold within_ranges, ranges_of, keys, items.
  revert combo. induction atomRanges as [|[k [lo hi]] ar IH]; intros combo H.
  - inversion H; subst. constructor.
  - inversion H as [|x l t ls Hx Ht]; subst. simpl. constructor.
    + simpl in *. apply elem_of_range in Hx. split; [done|lia].
    + by apply IH.
Qed.

Lemma within_ranges_inv (atomRanges : dict (Z * Z)) (f : formula) :
  within_ranges atomRanges f ->
  keys f = keys atomRanges /\ values f ∈ product (ranges_of atomRanges).
Proof.
  unfold within_ranges, keys, values, ranges_of, items.
  induction 1 as [|[k [lo hi]] [k' c] ar f [Hk Hc] _ [IHk IHv]]; simpl in *.
  - split; [done|]. by apply list_elem_of_singleton.
  - subst k'. split; [by f_equal|].
    apply (elem_of_product
             (range lo (hi + 1) :: map (fun e => range e.2.1 (e.2.2 + 1)) ar)
             (c :: f.*2)).
    constructor.
    + apply elem_of_range. lia.
    + by apply elem_of_product.
Qed.

Lemma elem_of_search_space (atomRanges : dict (Z * Z)) (f : formula) :
  f ∈ search_space atomRanges <-> within_ranges atomRanges f.
Proof.
  unfold search_space. rewrite list_elem_of_In, in_map_iff. split.
  - intros (combo & <- & Hc). apply within_ranges_zip. by apply list_elem_of_In.
  - intros Hf. destruct (within_ranges_inv _ _ Hf) as [Hk Hv].
    exists (values f). split; [|by apply list_elem_of_In].
    rewrite <- Hk. unfold keys, values. apply zip_fst_snd.
Qed.

(** ** The mass of a formula *)

Section Mass.
Variable ms : gmap string Q.

Lemma first_missing_Some_inv ks k :
  first_missing ms ks = Some k -> k ∈ ks /\ ms !! k = None.
Proof.
  induction ks as [|k' ks IH]; simpl; [done|].
  destruct (ms !! k') eqn:E.
  - intros H. destruct (IH H). split; [by right|done].
  - intros [= <-]. split; [by left|done].
Qed.

Lemma first_missing_exists ks :
  (exists k, k ∈ ks /\ ms !! k = None) -> exists k, first_missing ms ks = Some k.
Proof.
  induction ks as [|k' ks IH]; simpl; intros (k & Hin & Hk).
  - by apply elem_of_nil in Hin.
  - destruct (ms !! k') eqn:E; [|by eauto].
    apply elem_of_cons in Hin as [->|Hin]; [congruence|]. apply IH. eauto.
Qed.

Lemma first_missing_None ks :
  (forall k, k ∈ ks -> is_Some (ms !! k)) -> first_missing ms ks = None.
Proof.
  induction ks as [|k' ks IH]; simpl; intros H; [done|].
  destruct (H k') as [m ->]; [by left|]. apply IH. intros k Hk. apply H. by right.
Qed.

(** With a key missing, the sum raises on the first such key, whatever
    the counts. *)
Lemma sum_masses_missing its acc k :
  first_missing ms its.*1 = Some k -> sum_masses ms its acc = Raise (KeyError k).
Proof.
  revert acc. induction its as [|[el c] its IH]; intros acc; simpl; [done|].
  destruct (ms !! el); [apply IH|]. by intros [= ->].
Qed.

Lemma sum_masses_covered its acc :
  first_missing ms its.*1 = None -> exists m, sum_masses ms its acc = Ok m.
Proof.
  revert acc. induction its as [|[el c] its IH]; intros acc; simpl; [by eauto|].
  destruct (ms !! el); [apply IH|done].
Qed.

Lemma sum_masses_Ok_inv its acc m :
  sum_masses ms its acc = Ok m -> first_missing ms its.*1 = None.
Proof.
  revert acc. induction its as [|[el c] its IH]; intros acc; simpl; [done|].
  destruct (ms !! el); [apply IH|done].
Qed.

(** With positive masses and counts that are not negative, the sum does
    not decrease, and it grows as soon as one count is positive. *)
Lemma sum_masses_grows its acc m :
  (forall k q, k ∈ its.*1 -> ms !! k = Some q -> (0 < q)%Q) ->
  Forall (fun c => 0 <= c) its.*2 ->
  sum_masses ms its acc = Ok m ->
  (acc <= m)%Q /\ (0 < sum_Z its.*2 -> (acc < m)%Q).
Proof.
  revert acc. induction its as [|[el c] its IH]; intros acc Hpos Hc; simpl.
  - intros [= <-]. split; [apply Qle_refl|]. unfold sum_Z. simpl. lia.
  - destruct (ms !! el) as [q|] eqn:E; [|done]. intros Hsum.
    apply Forall_cons in Hc as [Hc0 Hc]. simpl in Hc0.
    assert (Hq : (0 < q)%Q) by (apply (Hpos el); [by left|done]).
    destruct (IH _ (fun k q' Hk => Hpos k q' (list_elem_of_further _ _ _ Hk)) Hc Hsum)
      as [Hle Hlt].
    assert (Hstep : (acc <= acc + q * inject_Z c)%Q).
    { rewrite <- (Qplus_0_r acc) at 1. apply Qplus_le_r.
      apply Qmult_le_0_compat; [by apply Qlt_le_weak|].
      change 0%Q with (inject_Z 0). by rewrite <- Zle_Qle. }
    split; [by eapply Qle_trans|].
    change (0 < sum_Z (c :: its.*2) -> (acc < m)%Q).
    rewrite sum_Z_cons. intros Htot.
    destruct (Z.eq_dec c 0) as [->|Hne].
    + eapply Qle_lt_trans; [exact Hstep|]. apply Hlt. lia.
    + eapply Qlt_le_trans; [|exact Hle].
      rewrite <- (Qplus_0_r acc) at 1. apply Qplus_lt_r.
      apply Qmult_lt_0_compat; [done|].
      change 0%Q with (inject_Z 0). rewrite <- Zlt_Qlt. lia.
Qed.

Lemma calculate_mass_positive (f : formula) m :
  (forall k q, k ∈ keys f -> ms !! k = Some q -> (0 < q)%Q) ->
  Forall (fun c => 0 <= c) (values f) ->
  0 < total_atoms f ->
  calculate_mass f ms = Ok m -> (0 < m)%Q.
Proof.
  intros Hpos Hc Htot Hm.
  destruct (sum_masses_grows _ _ _ Hpos Hc Hm) as [_ Hlt]. by apply Hlt.
Qed.
End Mass.

(** ** The enumerator *)

Lemma passes_atom_filter_spec maxT n :
  passes_atom_filter maxT n = true <-> n <> 0 /\ n <= maxT.
Proof. unfold passes_atom_filter. lia. Qed.

Section Enumerator.
Variables (ks : list string) (ms : gmap string Q) (lo hi : Q) (maxT : Z).

(** Whatever the inputs, a yielded formula comes from a point of the
    product, passed the atom filter and has a mass in the window. *)
Lemma generate_loop_yields combos f :
  f ∈ gen_yields (generate_loop ks ms lo hi maxT combos) ->
  exists combo, combo ∈ combos /\ f = of_items (zip ks combo)
    /\ passes_atom_filter maxT (total_atoms f) = true
    /\ mass_in_window ms lo hi f = true.
Proof.
  induction combos as [|combo combos IH]; simpl.
  - intros H. by apply elem_of_nil in H.
  - set (g := of_items (zip ks combo)).
    assert (Hrest : f ∈ gen_yields (generate_loop ks ms lo hi maxT combos) ->
            exists c, c ∈ combo :: combos /\ f = of_items (zip ks c)
              /\ passes_atom_filter maxT (total_atoms f) = true
              /\ mass_in_window ms lo hi f = true).
    { intros H. destruct (IH H) as (c & Hc & Hrest). exists c. split; [by right|done]. }
    destruct ((sum_Z (values g) =? 0) || (sum_Z (values g) >? maxT)) eqn:Ef; [done|].
    destruct (calculate_mass g ms) as [m|e] eqn:Em; simpl.
    + destruct (Qle_bool lo m && Qle_bool m hi) eqn:Ew; [|done]. simpl.
      intros H. apply elem_of_cons in H as [->|H]; [|by auto].
      exists combo. split; [by left|]. split; [done|]. split.
      * unfold passes_atom_filter, total_atoms. by rewrite Ef.
      * unfold mass_in_window. by rewrite Em.
    + intros H. by apply elem_of_nil in H.
Qed.

Hypothesis ks_distinct : NoDup ks.

(** With every key in the mass table the loop never raises: it yields
    the filtered points, in order. *)
Lemma generate_loop_covered combos :
  first_missing ms ks = None ->
  (forall combo, combo ∈ combos -> length combo = length ks) ->
  generate_loop ks ms lo hi maxT combos =
  gen_of_list
    (List.filter (fun f => passes_atom_filter maxT (total_atoms f)
                           && mass_in_window ms lo hi f)
       (map (zip ks) combos)).
Proof.
  intros Hcov. induction combos as [|combo combos IH]; intros Hlen; [done|].
  simpl. rewrite (formula_of_combo ks combo ks_distinct (Hlen combo (list_elem_of_here _ _))).
  rewrite IH by (intros c Hc; apply Hlen; by right).
  unfold passes_atom_filter, total_atoms, mass_in_window.
  destruct ((sum_Z (values (zip ks combo)) =? 0)
            || (sum_Z (values (zip ks combo)) >? maxT)); [done|]. simpl.
  destruct (sum_masses_covered ms (zip ks combo) 0%Q) as [m Hm].
  { destruct (zip_keys_values ks combo (Hlen combo (list_elem_of_here _ _))) as [Hk _].
    unfold keys in Hk. by rewrite Hk. }
  unfold calculate_mass, items. rewrite Hm.
  by destruct (Qle_bool lo m && Qle_bool m hi).
Qed.

(** With a key missing, the first point that passes the atom filter
    raises; the points before it are skipped, none is yielded. *)
Lemma generate_loop_missing combos k :
  first_missing ms ks = Some k ->
  (forall combo, combo ∈ combos -> length combo = length ks) ->
  generate_loop ks ms lo hi maxT combos =
  if existsb (fun combo => passes_atom_filter maxT (sum_Z combo)) combos
  then GRaise (KeyError k) else GDone.
Proof.
  intros Hmiss. induction combos as [|combo combos IH]; intros Hlen; [done|].
  simpl. rewrite (formula_of_combo ks combo ks_distinct (Hlen combo (list_elem_of_here _ _))).
  rewrite IH by (intros c Hc; apply Hlen; by right).
  destruct (zip_keys_values ks combo (Hlen combo (list_elem_of_here _ _))) as [Hk Hv].
  rewrite Hv. unfold passes_atom_filter.
  destruct ((sum_Z combo =? 0) || (sum_Z combo >? maxT)); [done|]. simpl.
  unfold calculate_mass, items. rewrite (sum_masses_missing ms _ _ k); [done|].
  unfold keys in Hk. by rewrite Hk.
Qed.
End Enumerator.

(** ** The scoring loop *)

Section Collect.
Variables (exactMass ionization : Q) (ms : gmap string Q) (ur : Q * Q).

(** A list returned by the loop is the list it started from, followed by
    scored candidates for yielded formulas. *)
Lemma collect_sound g acc l :
  collect exactMass ionization ms ur g acc = Ok l ->
  exists new, l = acc ++ new
    /\ Forall (fun c => c_formula c ∈ gen_yields g
                        /\ scored exactMass ionization ms ur c) new.
Proof.
  revert acc. induction g as [|f rest IH|e]; intros acc; simpl.
  - intros [= <-]. exists []. by rewrite app_nil_r.
  - destruct (calculate_mass f ms) as [m|e] eqn:Em; [|done].
    destruct (Qle_bool ur.1 (calculate_unsaturation f)
              && Qle_bool (calculate_unsaturation f) ur.2) eqn:Eu.
    + unfold py_div. destruct (Qeq_bool m 0) eqn:Ez; [done|].
      intros H. destruct (IH _ H) as (new & -> & Hnew).
      eexists (_ :: new). split; [by rewrite <- app_assoc|].
      constructor.
      * split; [by left|]. apply andb_prop in Eu as [Eu1 Eu2].
        apply Qle_bool_iff in Eu1, Eu2.
        repeat split; simpl; try done.
        intros Hz. apply Qeq_bool_iff in Hz. congruence.
      * eapply Forall_impl; [exact Hnew|]. intros c [Hc Hs]. split; [by right|done].
    + intros H. destruct (IH _ H) as (new & -> & Hnew). exists new. split; [done|].
      eapply Forall_impl; [exact Hnew|]. intros c [Hc Hs]. split; [by right|done].
  - done.
Qed.

(** Over a generator that ends normally and yields only formulas of
    defined, nonzero mass, the loop returns. *)
Lemma collect_returns ys acc :
  Forall (fun f => exists m, calculate_mass f ms = Ok m /\ ~ (m == 0)%Q) ys ->
  exists l, collect exactMass ionization ms ur (gen_of_list ys) acc = Ok l.
Proof.
  intros H. revert acc. induction H as [|f ys (m & Hm & Hnz) _ IH]; intros acc; simpl.
  - by eauto.
  - rewrite Hm. unfold py_div. destruct (Qeq_bool m 0) eqn:Ez.
    { exfalso. apply Hnz. by apply Qeq_bool_iff. }
    destruct (Qle_bool ur.1 (calculate_unsaturation f)
              && Qle_bool (calculate_unsaturation f) ur.2); apply IH.
Qed.
End Collect.

(** ** The stable sort *)

Section SortFacts.
Context {A : Type} (key : A -> Q).

Lemma insert_by_key_perm x l : Permutation (x :: l) (insert_by_key key x l).
Proof.
  induction l as [|y l IH]; simpl; [done|].
  destruct (Qle_bool (key x) (key y)); [done|].
  rewrite perm_swap. by constructor.
Qed.

Lemma sort_by_key_perm l : Permutation l (sort_by_key key l).
Proof.
  induction l as [|x l IH]; simpl; [done|].
  rewrite <- insert_by_key_perm. by constructor.
Qed.

Lemma insert_by_key_sorted x l :
  Sorted (key_le key) l -> Sorted (key_le key) (insert_by_key key x l).
Proof.
  induction 1 as [|y l Hs IH Hhd]; simpl.
  - repeat constructor.
  - destruct (Qle_bool (key x) (key y)) eqn:E.
    + constructor; [by constructor|]. constructor. by apply Qle_bool_iff.
    + constructor; [done|].
      assert (Hyx : key_le key y x).
      { unfold key_le. apply Qlt_le_weak, Qnot_le_lt. intros Hle.
        apply Qle_bool_iff in Hle. congruence. }
      destruct Hhd as [|z l Hyz]; simpl; [by constructor|].
      destruct (Qle_bool (key x) (key z)); by constructor.
Qed.

Lemma sort_by_key_sorted l : Sorted (key_le key) (sort_by_key key l).
Proof.
  induction l as [|x l IH]; simpl; [constructor|]. by apply insert_by_key_sorted.
Qed.

(** In a sorted list, neighbours are in order. *)
Lemma sorted_adjacent l i a b :
  Sorted (key_le key) l -> l !! i = Some a -> l !! S i = Some b -> key_le key a b.
Proof.
  intros Hs. revert i. induction Hs as [|x l Hs IH Hhd]; intros i Ha Hb; [done|].
  destruct i as [|i]; simpl in *.
  - injection Ha as ->. destruct Hhd as [|y l Hxy]; [done|].
    simpl in Hb. by injection Hb as ->.
  - by eapply IH.
Qed.

Lemma insert_by_key_stable q x l :
  with_key key q (insert_by_key key x l) = with_key key q (x :: l).
Proof.
  unfold with_key. induction l as [|y l IH]; simpl; [done|].
  destruct (Qle_bool (key x) (key y)) eqn:E; [done|].
  simpl. rewrite IH. simpl.
  destruct (Qeq_bool (key x) q) eqn:Ex, (Qeq_bool (key y) q) eqn:Ey; try done.
  exfalso. apply Qeq_bool_iff in Ex, Ey.
  assert (Hle : (key x <= key y)%Q) by (rewrite Ex, Ey; apply Qle_refl).
  apply Qle_bool_iff in Hle. congruence.
Qed.

(** Sorting keeps, for every key, the elements of that key in the order
    they had. *)
Lemma sort_by_key_stable q l : with_key key q (sort_by_key key l) = with_key key q l.
Proof.
  induction l as [|x l IH]; simpl; [done|].
  rewrite insert_by_key_stable. unfold with_key in *. simpl. by rewrite IH.
Qed.
End SortFacts.

(** ** The search as a whole *)

Lemma find_molecular_formulas_eq targetMass ppmTolerance atomRanges ms ionization ur :
  find_molecular_formulas targetMass ppmTolerance atomRanges ms ionization ur =
  ([mass_range_line (mass_window targetMass ppmTolerance ionization).1
                    (mass_window targetMass ppmTolerance ionization).2],
   match enumeration_order targetMass ppmTolerance atomRanges ms ionization ur with
   | Raise e => Raise e
   | Ok l => Ok (sort_by_key abs_deviation l)
   end).
Proof.
  unfold find_molecular_formulas, enumeration_order, mass_window. simpl.
  by destruct (collect _ _ _ _ _ _).
Qed.

Lemma gen_yields_of_list {A} (l : list A) : gen_yields (gen_of_list l) = l.
Proof. induction l as [|a l IH]; simpl; [done|]. by rewrite IH. Qed.

Lemma product_ranges_length (atomRanges : dict (Z * Z)) combo :
  combo ∈ product (ranges_of atomRanges) -> length combo = length (keys atomRanges).
Proof. intros H. rewrite (product_length _ _ H). apply ranges_of_length. Qed.

Lemma within_ranges_nonneg (atomRanges : dict (Z * Z)) (f : formula) :
  Forall (fun e => 0 <= e.2.1) atomRanges ->
  within_ranges atomRanges f -> Forall (fun c => 0 <= c) (values f).
Proof.
  unfold within_ranges, values. intros Hnn H. revert Hnn.
  induction H as [|e kv ar f [_ Hb] _ IH]; intros Hnn; [constructor|].
  apply Forall_cons in Hnn as [H0 Hnn]. rewrite fmap_cons. constructor; [lia|by apply IH].
Qed.

Lemma within_ranges_lookup (atomRanges : dict (Z * Z)) (f : formula) k lo hi :
  NoDup (keys atomRanges) -> within_ranges atomRanges f ->
  (k, (lo, hi)) ∈ atomRanges ->
  exists n, lookup f k = Some n /\ lo <= n <= hi.
Proof.
  intros Hnd Hw Hin.
  assert (Hkeys : keys f = keys atomRanges) by (by destruct (within_ranges_inv _ _ Hw)).
  assert (Hmem : exists n, (k, n) ∈ f /\ lo <= n <= hi).
  { clear Hnd Hkeys. induction Hw as [|e [k' n] ar f [Hk Hb] _ IH].
    - by apply elem_of_nil in Hin.
    - apply elem_of_cons in Hin as [<-|Hin].
      + simpl in *. subst k'. exists n. split; [by left|done].
      + destruct (IH Hin) as (n' & Hn' & Hb'). exists n'. split; [by right|done]. }
  destruct Hmem as (n & Hn & Hb). exists n. split; [|done].
  apply lookup_present; [by rewrite Hkeys|done].
Qed.

(** The formulas yielded for a well-formed [atomRanges] lie within the
    ranges. *)
Lemma generate_formulas_within atomRanges ms lo hi maxT f :
  NoDup (keys atomRanges) ->
  f ∈ gen_yields (generate_formulas atomRanges ms lo hi maxT) ->
  within_ranges atomRanges f
  /\ passes_atom_filter maxT (total_atoms f) = true
  /\ mass_in_window ms lo hi f = true.
Proof.
  intros Hnd Hf. unfold generate_formulas in Hf.
  apply generate_loop_yields in Hf as (combo & Hc & -> & Hrest).
  rewrite formula_of_combo in *; try done; try by apply product_ranges_length.
  split; [by apply within_ranges_zip|done].
Qed.

(** ** Properties of the enumerator *)

(** The enumerator over a well-formed input, as a filter of the search
    space. *)
Lemma generate_formulas_filter atomRanges ms minMass maxMass maxTotalAtoms :
  NoDup (keys atomRanges) ->
  (forall k, k ∈ keys atomRanges -> is_Some (ms !! k)) ->
  Forall (fun e => 0 <= e.2.1) atomRanges ->
  generate_formulas atomRanges ms minMass maxMass maxTotalAtoms =
    gen_of_list (List.filter (admissible ms minMass maxMass maxTotalAtoms)
                   (search_space atomRanges))
  /\ forall f,
       f ∈ gen_yields (generate_formulas atomRanges ms minMass maxMass maxTotalAtoms)
       <-> within_ranges atomRanges f
           /\ 0 < total_atoms f <= maxTotalAtoms
           /\ exists m, calculate_mass f ms = Ok m
                        /\ (minMass <= m)%Q /\ (m <= maxMass)%Q.
Proof.
  intros Hnd Hcov Hnn.
  assert (Heq : generate_formulas atomRanges ms minMass maxMass maxTotalAtoms =
    gen_of_list (List.filter (admissible ms minMass maxMass maxTotalAtoms)
                   (search_space atomRanges))).
  { unfold generate_formulas.
    rewrite generate_loop_covered; try done.
    - f_equal. unfold search_space. apply filter_ext_in. intros f Hf.
      apply list_elem_of_In in Hf.
      assert (Hw : within_ranges atomRanges f) by (by apply elem_of_search_space).
      pose proof (sum_Z_nonneg _ (within_ranges_nonneg _ _ Hnn Hw)) as Htot.
      unfold admissible, passes_atom_filter. fold (total_atoms f) in Htot.
      f_equal. lia.
    - by apply first_missing_None.
    - intros combo. apply product_ranges_length. }
  split; [done|]. intros f. rewrite Heq, gen_yields_of_list.
  rewrite list_elem_of_In, filter_In, <- list_elem_of_In, elem_of_search_space.
  unfold admissible, mass_in_window.
  split.
  - intros [Hw Had]. split; [done|].
    apply andb_prop in Had as [Had Hm]. apply andb_prop in Had as [H0 Hmax].
    split; [lia|]. destruct (calculate_mass f ms) as [m|e]; [|done].
    apply andb_prop in Hm as [Hlo Hhi]. exists m.
    by rewrite <- !Qle_bool_iff.
  - intros (Hw & Htot & m & Hm & Hlo & Hhi). split; [done|].
    rewrite Hm. apply Qle_bool_iff in Hlo, Hhi. rewrite Hlo, Hhi.
    apply andb_true_intro. split; [|done]. lia.
Qed.

(** C3. For an [atomRanges] with distinct keys and lower bounds that are
    not negative, and a mass table that has every key, the enumerator ends
    normally and yields, in enumeration order, exactly the formulas of the
    Cartesian product of the inclusive ranges whose total atom count is
    greater than 0 and at most [maxTotalAtoms] and whose mass lies in
    [[minMass, maxMass]], bounds included. *)
Theorem generate_formulas_exact atomRanges ms minMass maxMass maxTotalAtoms :
  NoDup (keys atomRanges) ->
  (forall k, k ∈ keys atomRanges -> is_Some (ms !! k)) ->
  Forall (fun e => 0 <= e.2.1) atomRanges ->
  generate_formulas atomRanges ms minMass maxMass maxTotalAtoms =
    gen_of_list (List.filter (admissible ms minMass maxMass maxTotalAtoms)
                   (search_space atomRanges))
  /\ forall f,
       f ∈ gen_yields (generate_formulas atomRanges ms minMass maxMass maxTotalAtoms)
       <-> within_ranges atomRanges f
           /\ 0 < total_atoms f <= maxTotalAtoms
           /\ exists m, calculate_mass f ms = Ok m
                        /\ (minMass <= m)%Q /\ (m <= maxMass)%Q.
Proof. apply generate_formulas_filter. Qed.

(** C10. For an [atomRanges] with distinct keys, every candidate the
    search returns has a formula with the keys of [atomRanges], in the
    same order and with the zero counts kept, and the count stored under
    each key lies within the inclusive bounds configured for that key. *)
Theorem returned_formulas_within_ranges
    targetMass ppmTolerance atomRanges ms ionization ur l :
  NoDup (keys atomRanges) ->
  (find_molecular_formulas targetMass ppmTolerance atomRanges ms ionization ur).2
    = Ok l ->
  forall c, c ∈ l ->
    keys (c_formula c) = keys atomRanges
    /\ forall k lo hi, (k, (lo, hi)) ∈ atomRanges ->
         exists n, lookup (c_formula c) k = Some n /\ lo <= n <= hi.
Proof.
  intros Hnd. rewrite find_molecular_formulas_eq. simpl.
  destruct (enumeration_order _ _ _ _ _ _) as [l0|e] eqn:E; [|done].
  intros [= <-] c Hc.
  rewrite <- (sort_by_key_perm abs_deviation l0) in Hc.
  apply collect_sound in E as (new & -> & Hnew). simpl in Hc.
  rewrite Forall_forall in Hnew. destruct (Hnew c Hc) as [Hy _].
  apply generate_formulas_within in Hy as (Hw & _); [|done].
  split; [by destruct (within_ranges_inv _ _ Hw)|].
  intros k lo hi Hin. by eapply within_ranges_lookup.
Qed.

(** ** Safety of the division *)

(** C8. For an [atomRanges] with distinct keys and lower bounds that are
    not negative, and a mass table that gives every key a positive mass:
    every yielded formula has at least one atom and a mass greater than 0,
    and the search returns a list; the division of the deviation step
    never has a zero divisor. *)
Theorem deviation_division_defined atomRanges ms :
  NoDup (keys atomRanges) ->
  (forall k, k ∈ keys atomRanges -> exists q, ms !! k = Some q /\ (0 < q)%Q) ->
  Forall (fun e => 0 <= e.2.1) atomRanges ->
  (forall minMass maxMass maxTotalAtoms f,
     f ∈ gen_yields (generate_formulas atomRanges ms minMass maxMass maxTotalAtoms) ->
     1 <= total_atoms f /\ exists m, calculate_mass f ms = Ok m /\ (0 < m)%Q)
  /\ (forall targetMass ppmTolerance ionization ur,
        (find_molecular_formulas targetMass ppmTolerance atomRanges ms ionization ur).2
          <> Raise ZeroDivisionError
        /\ exists l,
          (find_molecular_formulas targetMass ppmTolerance atomRanges ms ionization ur).2
            = Ok l).
Proof.
  intros Hnd Hpos Hnn.
  assert (Hcov : forall k, k ∈ keys atomRanges -> is_Some (ms !! k)).
  { intros k Hk. destruct (Hpos k Hk) as (q & -> & _). by eexists. }
  assert (Hyield : forall minMass maxMass maxTotalAtoms f,
     f ∈ gen_yields (generate_formulas atomRanges ms minMass maxMass maxTotalAtoms) ->
     1 <= total_atoms f /\ exists m, calculate_mass f ms = Ok m /\ (0 < m)%Q).
  { intros lo hi maxT f Hf.
    destruct (generate_formulas_filter atomRanges ms lo hi maxT Hnd Hcov Hnn) as [_ Hiff].
    apply Hiff in Hf as (Hw & Htot & m & Hm & _).
    split; [lia|]. exists m. split; [done|].
    eapply calculate_mass_positive; [| |exact (proj1 Htot)|exact Hm].
    - intros k q Hk Hq. destruct (within_ranges_inv _ _ Hw) as [Hkeys _].
      rewrite Hkeys in Hk. destruct (Hpos k Hk) as (q' & Hq' & Hlt). congruence.
    - by eapply within_ranges_nonneg. }
  split; [done|]. intros targetMass ppmTolerance ionization ur.
  assert (Hret : exists l,
    (find_molecular_formulas targetMass ppmTolerance atomRanges ms ionization ur).2 = Ok l).
  { rewrite find_molecular_formulas_eq. simpl. unfold enumeration_order.
    destruct (generate_formulas_filter atomRanges ms
                (mass_window targetMass ppmTolerance ionization).1
                (mass_window targetMass ppmTolerance ionization).2
                default_maxTotalAtoms Hnd Hcov Hnn) as [Heq _].
    destruct (collect_returns (targetMass - ionization)%Q ionization ms ur
                (List.filter (admissible ms (mass_window targetMass ppmTolerance ionization).1
                                (mass_window targetMass ppmTolerance ionization).2
                                default_maxTotalAtoms) (search_space atomRanges)) [])
      as [l Hl].
    - apply Forall_forall. intros f Hf.
      rewrite <- (gen_yields_of_list (List.filter _ _)), <- Heq in Hf.
      destruct (Hyield _ _ _ _ Hf) as (_ & m & Hm & Hlt). exists m. split; [done|].
      intros Hz. rewrite Hz in Hlt. by apply Qlt_irrefl in Hlt.
    - rewrite Heq, Hl. by eauto. }
  split; [|done]. destruct Hret as [l ->]. done.
Qed.

(** ** Errors *)

(** C1, as the code has it. When a key of [atomRanges] (distinct keys) has
    no entry in the mass table, nothing is checked before the enumeration:
    the search raises the lookup error of the mass computation when the
    enumeration reaches a point whose atom count is not 0 and at most 150,
    and it returns the empty list when the product has no such point. *)
Theorem missing_mass_entry_raised_during_enumeration
    targetMass ppmTolerance atomRanges ms ionization ur :
  NoDup (keys atomRanges) ->
  (exists k, k ∈ keys atomRanges /\ ms !! k = None) ->
  ((exists combo, combo ∈ product (ranges_of atomRanges)
                  /\ sum_Z combo <> 0 /\ sum_Z combo <= default_maxTotalAtoms) ->
   exists k, k ∈ keys atomRanges /\ ms !! k = None
     /\ (find_molecular_formulas targetMass ppmTolerance atomRanges ms ionization ur).2
        = Raise (KeyError k))
  /\ ((forall combo, combo ∈ product (ranges_of atomRanges) ->
         sum_Z combo = 0 \/ default_maxTotalAtoms < sum_Z combo) ->
      (find_molecular_formulas targetMass ppmTolerance atomRanges ms ionization ur).2
        = Ok []).
Proof.
  intros Hnd Hmiss.
  destruct (first_missing_exists ms _ Hmiss) as [k Hk].
  destruct (first_missing_Some_inv ms _ _ Hk) as [Hin Hnone].
  rewrite find_molecular_formulas_eq. simpl.
  unfold enumeration_order, generate_formulas.
  rewrite (generate_loop_missing _ ms _ _ _ Hnd _ k Hk)
    by (intros combo; apply product_ranges_length).
  split.
  - intros (combo & Hc & Hnz & Hle). exists k. split; [done|]. split; [done|].
    assert (Hex : existsb (fun c => passes_atom_filter default_maxTotalAtoms (sum_Z c))
                    (product (ranges_of atomRanges)) = true).
    { apply existsb_exists. exists combo. split; [by apply list_elem_of_In|].
      by apply passes_atom_filter_spec. }
    by rewrite Hex.
  - intros Hall.
    destruct (existsb _ (product (ranges_of atomRanges))) eqn:Hex; [|done].
    apply existsb_exists in Hex as (combo & Hc & Hp).
    apply list_elem_of_In in Hc. apply passes_atom_filter_spec in Hp.
    destruct (Hall combo Hc); lia.
Qed.

(** C2, as the code has it. When an entry of [atomRanges] has its minimum
    above its maximum, the range of that element is empty, the product has
    no point, and the search returns the empty list without any error. *)
Theorem inverted_range_returns_empty
    targetMass ppmTolerance atomRanges ms ionization ur :
  (exists e, e ∈ atomRanges /\ e.2.2 < e.2.1) ->
  (find_molecular_formulas targetMass ppmTolerance atomRanges ms ionization ur).2
    = Ok [].
Proof.
  intros (e & Hin & Hlt).
  rewrite find_molecular_formulas_eq. simpl.
  unfold enumeration_order, generate_formulas.
  rewrite product_with_empty; [done|].
  unfold ranges_of, items. apply list_elem_of_In, in_map_iff.
  exists e. split; [|by apply list_elem_of_In]. apply range_empty. lia.
Qed.

(** ** Ranking, window and output *)

(** C4. The list the search returns is in ascending order of absolute
    deviation: each element's absolute deviation is at most that of its
    successor. It is a rearrangement of the accepted candidates, and the
    candidates of one absolute deviation stand in it in the order in which
    the enumeration produced them. *)
Theorem results_sorted_by_abs_deviation
    targetMass ppmTolerance atomRanges ms ionization ur l :
  (find_molecular_formulas targetMass ppmTolerance atomRanges ms ionization ur).2
    = Ok l ->
  (forall i a b, l !! i = Some a -> l !! S i = Some b ->
     (Qabs (c_deviation a) <= Qabs (c_deviation b))%Q)
  /\ exists l0,
       enumeration_order targetMass ppmTolerance atomRanges ms ionization ur = Ok l0
       /\ Permutation l0 l
       /\ forall q, with_key abs_deviation q l = with_key abs_deviation q l0.
Proof.
  rewrite find_molecular_formulas_eq. simpl.
  destruct (enumeration_order _ _ _ _ _ _) as [l0|e]; [|done].
  intros [= <-]. split.
  - intros i a b Ha Hb.
    exact (sorted_adjacent abs_deviation _ i a b
             (sort_by_key_sorted abs_deviation l0) Ha Hb).
  - exists l0. split; [done|]. split.
    + apply sort_by_key_perm.
    + intros q. apply sort_by_key_stable.
Qed.

(** C6. The window of a search is computed from the de-ionized mass:
    with [exactMass = targetMass - ionization], the enumerator is run with
    [minMass = exactMass - (ppmTolerance / 1e6) * exactMass] and
    [maxMass = exactMass + (ppmTolerance / 1e6) * exactMass], and the mass
    of every returned candidate lies between these two bounds. *)
Theorem window_relative_to_exact_mass
    targetMass ppmTolerance atomRanges ms ionization ur :
  let exactMass := (targetMass - ionization)%Q in
  let minMass := (exactMass - ppmTolerance / 1000000 * exactMass)%Q in
  let maxMass := (exactMass + ppmTolerance / 1000000 * exactMass)%Q in
  (find_molecular_formulas targetMass ppmTolerance atomRanges ms ionization ur).2
    = match collect exactMass ionization ms ur
              (generate_formulas atomRanges ms minMass maxMass default_maxTotalAtoms) []
      with
      | Raise e => Raise e
      | Ok possible => Ok (sort_by_key abs_deviation possible)
      end
  /\ forall l,
       (find_molecular_formulas targetMass ppmTolerance atomRanges ms ionization ur).2
         = Ok l ->
       forall c, c ∈ l -> (minMass <= c_mass c)%Q /\ (c_mass c <= maxMass)%Q.
Proof.
  intros exactMass minMass maxMass.
  rewrite find_molecular_formulas_eq. unfold enumeration_order, mass_window.
  cbn [fst snd]. fold exactMass minMass maxMass. split; [done|].
  intros l.
  destruct (collect _ _ _ _ _ _) as [l0|e] eqn:E; [|done].
  intros [= <-] c Hc.
  rewrite <- (sort_by_key_perm abs_deviation l0) in Hc.
  apply collect_sound in E as (new & -> & Hnew). simpl in Hc.
  rewrite Forall_forall in Hnew. destruct (Hnew c Hc) as [Hy (Hm & _)].
  unfold generate_formulas in Hy.
  apply generate_loop_yields in Hy as (combo & _ & _ & _ & Hw).
  unfold mass_in_window in Hw. rewrite Hm in Hw.
  apply andb_prop in Hw as [Hlo Hhi]. by rewrite <- !Qle_bool_iff.
Qed.

(** C9, as the code has it. Every call of the search prints one line, the
    mass window it derived, before it enumerates anything; that line and
    the returned list (or the exception) are all a call produces. *)
Theorem search_prints_mass_range
    targetMass ppmTolerance atomRanges ms ionization ur :
  (find_molecular_formulas targetMass ppmTolerance atomRanges ms ionization ur).1
  = [ [PStr (newline +:+ "Mass range from the expected value:"); PStr "[";
       PNum ((targetMass - ionization)
             - ppmTolerance / 1000000 * (targetMass - ionization))%Q;
       PStr ",";
       PNum ((targetMass - ionization)
             + ppmTolerance / 1000000 * (targetMass - ionization))%Q;
       PStr "]"] ].
Proof. by rewrite find_molecular_formulas_eq. Qed.

(** ** Unsaturation *)

Lemma get_count (f : formula) e : get f e 0 = count f e.
Proof. unfold get, count. by destruct (lookup f e). Qed.

(** C5. The unsaturation of a formula is C - (H + X)/2 + N/2 + 1, with X
    the sum of the counts of F, Cl, Br and I; an element that is not a key
    of the formula counts 0; a formula whose counts of C, H, N and of the
    four halogens are all 0 has unsaturation 1. *)
Theorem unsaturation_is_dbe (f : formula) :
  (calculate_unsaturation f
   == dbe (count f "C") (count f "H") (count f "N")
          (count f "F" + count f "Cl" + count f "Br" + count f "I"))%Q
  /\ (forall e, e ∉ keys f -> count f e = 0)
  /\ (count f "C" = 0 -> count f "H" = 0 -> count f "N" = 0 ->
      count f "F" = 0 -> count f "Cl" = 0 -> count f "Br" = 0 ->
      count f "I" = 0 ->
      (calculate_unsaturation f == 1)%Q).
Proof.
  split; [|split].
  - unfold calculate_unsaturation, dbe. rewrite !get_count.
    by rewrite inject_Z_plus.
  - intros e He. unfold count. by rewrite lookup_absent.
  - intros HC HH HN HF HCl HBr HI.
    unfold calculate_unsaturation. rewrite !get_count.
    rewrite HC, HH, HN, HF, HCl, HBr, HI. reflexivity.
Qed.

(** ** Valence check *)

Lemma valency_lookup k v :
  valency !! k = Some v ->
  (k, v) ∈ [("C", 4); ("H", 1); ("N", 3); ("O", 2); ("S", 2);
            ("F", 1); ("Cl", 7); ("Br", 7); ("I", 7)].
Proof. unfold valency. apply elem_of_list_to_map_2. Qed.

Lemma total_bonds_cons k c v (f : formula) :
  valency !! k = Some v -> k ∉ keys f ->
  total_bonds ((k, c) :: f) = v * c + total_bonds f.
Proof.
  intros Hv Hk. apply valency_lookup in Hv.
  assert (H0 : get f k 0 = 0) by (unfold get; by rewrite lookup_absent).
  unfold total_bonds.
  repeat (apply elem_of_cons in Hv as [[= -> ->]|Hv];
          [unfold get in *; simpl; lia|]).
  by apply elem_of_nil in Hv.
Qed.

(** Over a formula with distinct keys, all in the valence table, the sum
    over the items is the bond count of the left-hand side. *)
Lemma sum_valencies_total_bonds (f : formula) acc :
  NoDup (keys f) -> (forall k, k ∈ keys f -> is_Some (valency !! k)) ->
  sum_valencies (items f) acc = Ok (acc + total_bonds f).
Proof.
  unfold items. revert acc. induction f as [|[k c] f IH]; intros acc Hnd Hcov.
  - simpl. f_equal. unfold total_bonds, get. simpl. lia.
  - apply NoDup_cons in Hnd as [Hk Hnd]. simpl.
    destruct (Hcov k) as [v Hv]; [by left|]. rewrite Hv.
    rewrite IH; [|done|by intros k' Hk'; apply Hcov; right].
    f_equal. rewrite (total_bonds_cons k c v f Hv Hk). lia.
Qed.

Lemma sum_valencies_missing its acc :
  (exists k, k ∈ its.*1 /\ valency !! k = None) ->
  exists k, k ∈ its.*1 /\ valency !! k = None
            /\ sum_valencies its acc = Raise (KeyError k).
Proof.
  revert acc. induction its as [|[el c] its IH]; intros acc (k & Hin & Hk).
  - by apply elem_of_nil in Hin.
  - simpl. destruct (valency !! el) as [v|] eqn:E.
    + apply elem_of_cons in Hin as [->|Hin]; [simpl in *; congruence|].
      destruct (IH (acc + v * c) (ex_intro _ k (conj Hin Hk))) as (k' & Hin' & Hk' & Hs).
      exists k'. split; [by right|done].
    + exists el. split; [by left|done].
Qed.

(** C7, as the code has it. For a formula all of whose symbols are in the
    valence table (C, H, N, O, S, F, Cl, Br, I) the two sides of the
    comparison are the same number and the check returns true; for a
    formula with any other symbol the sum over its items raises the
    lookup error of that symbol and the check returns nothing. *)
Theorem is_valid_formula_true_on_table (f : formula) :
  NoDup (keys f) ->
  ((forall k, k ∈ keys f -> is_Some (valency !! k)) ->
   is_valid_formula f = Ok true)
  /\ ((exists k, k ∈ keys f /\ valency !! k = None) ->
      exists k, k ∈ keys f /\ valency !! k = None
                /\ is_valid_formula f = Raise (KeyError k)).
Proof.
  intros Hnd. split.
  - intros Hcov. unfold is_valid_formula.
    rewrite (sum_valencies_total_bonds f 0 Hnd Hcov). fold (total_bonds f).
    f_equal. lia.
  - intros Hmiss. unfold is_valid_formula.
    destruct (sum_valencies_missing (items f) 0 Hmiss) as (k & Hin & Hk & ->).
    by exists k.
Qed.

(** ** The properties on sample inputs *)

Ltac each_key H :=
  repeat (apply elem_of_cons in H as [->|H]); [..|by apply elem_of_nil in H].

Ltac distinct_keys :=
  apply (bool_decide_unpack (NoDup _)); vm_compute; exact I.

Lemma generate_formulas_exact_witness :
  NoDup (keys ranges_CH)
  /\ (forall k, k ∈ keys ranges_CH -> is_Some (masses_CH !! k))
  /\ Forall (fun e => 0 <= e.2.1) ranges_CH
  /\ generate_formulas ranges_CH masses_CH 0 60 150 =
       gen_of_list (List.filter (admissible masses_CH 0 60 150)
                      (search_space ranges_CH)).
Proof.
  assert (Hnd : NoDup (keys ranges_CH)).
  { distinct_keys. }
  assert (Hcov : forall k, k ∈ keys ranges_CH -> is_Some (masses_CH !! k)).
  { intros k Hk. vm_compute in Hk. each_key Hk; vm_compute; eauto. }
  assert (Hnn : Forall (fun e => 0 <= e.2.1) ranges_CH).
  { repeat constructor; simpl; lia. }
  split; [exact Hnd|]. split; [exact Hcov|]. split; [exact Hnn|].
  exact (proj1 (generate_formulas_exact ranges_CH masses_CH 0 60 150 Hnd Hcov Hnn)).
Defined.

Lemma returned_formulas_within_ranges_witness :
  NoDup (keys ranges_CH)
  /\ exists l,
       (find_molecular_formulas 30 1000000 ranges_CH masses_CH 0 (-10 # 1, 10 # 1)%Q).2
         = Ok l
       /\ forall c, c ∈ l ->
            keys (c_formula c) = keys ranges_CH
            /\ forall k lo hi, (k, (lo, hi)) ∈ ranges_CH ->
                 exists n, lookup (c_formula c) k = Some n /\ lo <= n <= hi.
Proof.
  assert (Hnd : NoDup (keys ranges_CH)) by distinct_keys.
  split; [exact Hnd|].
  eexists. split; [vm_compute; reflexivity|].
  apply (returned_formulas_within_ranges
           30 1000000 ranges_CH masses_CH 0 (-10 # 1, 10 # 1)%Q _ Hnd).
  vm_compute. reflexivity.
Defined.

Lemma deviation_division_defined_witness :
  NoDup (keys ranges_CH)
  /\ (forall k, k ∈ keys ranges_CH -> exists q, masses_CH !! k = Some q /\ (0 < q)%Q)
  /\ Forall (fun e => 0 <= e.2.1) ranges_CH
  /\ (find_molecular_formulas 30 1000000 ranges_CH masses_CH 0 (-10 # 1, 10 # 1)%Q).2
       <> Raise ZeroDivisionError.
Proof.
  assert (Hnd : NoDup (keys ranges_CH)) by distinct_keys.
  assert (Hpos : forall k, k ∈ keys ranges_CH ->
                   exists q, masses_CH !! k = Some q /\ (0 < q)%Q).
  { intros k Hk. vm_compute in Hk. each_key Hk.
    - exists 12%Q. split; [vm_compute|]; reflexivity.
    - exists (1007825035 # 1000000000)%Q. split; [vm_compute|]; reflexivity. }
  assert (Hnn : Forall (fun e => 0 <= e.2.1) ranges_CH).
  { repeat constructor; simpl; lia. }
  split; [exact Hnd|]. split; [exact Hpos|]. split; [exact Hnn|].
  exact (proj1 (proj2 (deviation_division_defined ranges_CH masses_CH Hnd Hpos Hnn)
                  30%Q 1000000%Q 0%Q (-10 # 1, 10 # 1)%Q)).
Defined.

(** C1 fails as stated: sodium has no mass, yet the search over ranges
    that leave only the empty formula returns the empty list. *)
Lemma missing_mass_entry_not_checked_eagerly :
  "Na" ∈ keys ranges_CNa_zero
  /\ masses_CH !! "Na" = None
  /\ (find_molecular_formulas 30 10 ranges_CNa_zero masses_CH 0 (0, 100)%Q).2 = Ok [].
Proof.
  split; [|split].
  - vm_compute. right. left.
  - vm_compute. reflexivity.
  - vm_compute. reflexivity.
Qed.

Lemma missing_mass_entry_raised_during_enumeration_witness :
  NoDup (keys ranges_CNa)
  /\ (exists k, k ∈ keys ranges_CNa /\ masses_CH !! k = None)
  /\ (exists combo, combo ∈ product (ranges_of ranges_CNa)
                    /\ sum_Z combo <> 0 /\ sum_Z combo <= default_maxTotalAtoms)
  /\ exists k, k ∈ keys ranges_CNa /\ masses_CH !! k = None
       /\ (find_molecular_formulas 30 10 ranges_CNa masses_CH 0 (0, 100)%Q).2
          = Raise (KeyError k).
Proof.
  assert (Hnd : NoDup (keys ranges_CNa)) by distinct_keys.
  assert (Hmiss : exists k, k ∈ keys ranges_CNa /\ masses_CH !! k = None).
  { exists "Na". split; [vm_compute; right; left|vm_compute; reflexivity]. }
  assert (Hpt : exists combo, combo ∈ product (ranges_of ranges_CNa)
                  /\ sum_Z combo <> 0 /\ sum_Z combo <= default_maxTotalAtoms).
  { exists [0; 1]. split; [vm_compute; right; left|]. split; vm_compute; discriminate. }
  split; [exact Hnd|]. split; [exact Hmiss|]. split; [exact Hpt|].
  exact (proj1 (missing_mass_entry_raised_during_enumeration
                  30 10 ranges_CNa masses_CH 0 (0, 100)%Q Hnd Hmiss) Hpt).
Defined.

(** C2 fails as stated: with the range of carbon running from 2 down to 1
    the search raises nothing. *)
Lemma inverted_range_raises_nothing :
  (exists e, e ∈ ranges_inverted /\ e.2.2 < e.2.1)
  /\ ~ exists e,
       (find_molecular_formulas 30 10 ranges_inverted masses_CH 0 (0, 100)%Q).2
         = Raise e.
Proof.
  split.
  - exists ("C", (2, 1)). split; [left|reflexivity].
  - intros [e He]. vm_compute in He. discriminate.
Qed.

Lemma inverted_range_returns_empty_witness :
  (exists e, e ∈ ranges_C_inverted_H /\ e.2.2 < e.2.1)
  /\ (find_molecular_formulas 30 1000000 ranges_C_inverted_H masses_CH 0
        (-10 # 1, 10 # 1)%Q).2 = Ok [].
Proof.
  assert (Hinv : exists e, e ∈ ranges_C_inverted_H /\ e.2.2 < e.2.1).
  { exists ("H", (4, 0)). split; [right; left|reflexivity]. }
  split; [exact Hinv|].
  exact (inverted_range_returns_empty
           30 1000000 ranges_C_inverted_H masses_CH 0 (-10 # 1, 10 # 1)%Q Hinv).
Defined.

Lemma results_sorted_by_abs_deviation_witness :
  exists l,
    (find_molecular_formulas 30 1000000 ranges_CH masses_CH 0 (-10 # 1, 10 # 1)%Q).2
      = Ok l
    /\ forall i a b, l !! i = Some a -> l !! S i = Some b ->
         (Qabs (c_deviation a) <= Qabs (c_deviation b))%Q.
Proof.
  eexists. split; [vm_compute; reflexivity|].
  refine (proj1 (results_sorted_by_abs_deviation
                   30 1000000 ranges_CH masses_CH 0 (-10 # 1, 10 # 1)%Q _ _)).
  vm_compute. reflexivity.
Defined.

Lemma window_relative_to_exact_mass_witness :
  exists l,
    (find_molecular_formulas 30 1000000 ranges_CH masses_CH 0 (-10 # 1, 10 # 1)%Q).2
      = Ok l
    /\ forall c, c ∈ l ->
         (30 - 0 - 1000000 / 1000000 * (30 - 0) <= c_mass c)%Q
         /\ (c_mass c <= 30 - 0 + 1000000 / 1000000 * (30 - 0))%Q.
Proof.
  eexists. split; [vm_compute; reflexivity|].
  refine (proj2 (window_relative_to_exact_mass
                   30 1000000 ranges_CH masses_CH 0 (-10 # 1, 10 # 1)%Q) _ _).
  vm_compute. reflexivity.
Defined.

(** C9 fails as stated: a call prints. *)
Lemma search_output_not_empty :
  (find_molecular_formulas 30 10 ranges_CH masses_CH 0 (0, 100)%Q).1 <> [].
Proof. vm_compute. discriminate. Qed.

Lemma unsaturation_is_dbe_witness :
  count oxygen "C" = 0 /\ count oxygen "H" = 0 /\ count oxygen "N" = 0
  /\ count oxygen "F" = 0 /\ count oxygen "Cl" = 0 /\ count oxygen "Br" = 0
  /\ count oxygen "I" = 0
  /\ (calculate_unsaturation oxygen == 1)%Q.
Proof.
  do 7 (split; [reflexivity|]).
  apply (proj2 (proj2 (unsaturation_is_dbe oxygen))); reflexivity.
Defined.

(** C7 fails as stated: sodium is not in the valence table, and the check
    of a formula with sodium raises instead of returning true. *)
Lemma is_valid_formula_raises_off_table :
  is_valid_formula sodium_methoxide = Raise (KeyError "Na")
  /\ is_valid_formula sodium_methoxide <> Ok true.
Proof. split; [vm_compute; reflexivity|vm_compute; discriminate]. Qed.

Lemma is_valid_formula_true_on_table_witness :
  NoDup (keys methane)
  /\ (forall k, k ∈ keys methane -> is_Some (valency !! k))
  /\ is_valid_formula methane = Ok true.
Proof.
  assert (Hnd : NoDup (keys methane)) by distinct_keys.
  assert (Hcov : forall k, k ∈ keys methane -> is_Some (valency !! k)).
  { intros k Hk. vm_compute in Hk. each_key Hk; vm_compute; eauto. }
  split; [exact Hnd|]. split; [exact Hcov|].
  exact (proj1 (is_valid_formula_true_on_table methane Hnd) Hcov).
Defined.

(** * Further properties of the code *)

(** ** Mass *)

Section MassAlgebra.
Variable ms : gmap string Q.



End MassAlgebra.



(** X3. The mass is defined exactly when every symbol of the formula has
    an entry in the mass table; otherwise the call raises the lookup
    error of the first symbol, in formula order, that has none. *)
Theorem calculate_mass_defined_iff (f : formula) ms :
  ((exists m, calculate_mass f ms = Ok m)
   <-> forall k, k ∈ keys f -> is_Some (ms !! k))
  /\ (forall e, calculate_mass f ms = Raise e ->
        exists k, e = KeyError k /\ first_missing ms (keys f) = Some k
                  /\ k ∈ keys f /\ ms !! k = None).
Proof.
  unfold calculate_mass, items, keys. split; [split|].
  - intros [m Hm] k Hk. apply sum_masses_Ok_inv in Hm.
    destruct (ms !! k) eqn:E; [by eauto|].
    destruct (first_missing_exists ms f.*1 (ex_intro _ k (conj Hk E))). congruence.
  - intros Hcov. apply sum_masses_covered. by apply first_missing_None.
  - intros e He. destruct (first_missing ms f.*1) as [k|] eqn:E.
    + rewrite (sum_masses_missing ms f 0%Q k E) in He. injection He as <-.
      exists k. destruct (first_missing_Some_inv ms _ _ E). by repeat split.
    + destruct (sum_masses_covered ms f 0%Q E). congruence.
Qed.

(** ** Dictionary lookups under reordering and update *)

Lemma lookup_Some_elem {V} (d : dict V) k v : lookup d k = Some v -> (k, v) ∈ d.
Proof.
  induction d as [|[k' v'] d IH]; simpl; [done|].
  destruct (String.eqb_spec k k') as [->|_].
  - intros [= ->]. by left.
  - intros H. right. by apply IH.
Qed.

Lemma lookup_None_absent {V} (d : dict V) k : lookup d k = None -> k ∉ keys d.
Proof.
  induction d as [|[k' v'] d IH]; simpl.
  - intros _ H. by apply elem_of_nil in H.
  - destruct (String.eqb_spec k k') as [->|Hne]; [done|].
    intros H. apply not_elem_of_cons. split; [done|by apply IH].
Qed.

Lemma lookup_perm {V} (d d' : dict V) k :
  NoDup (keys d) -> d ≡ₚ d' -> lookup d k = lookup d' k.
Proof.
  intros Hnd Hp.
  assert (Hkeys : keys d ≡ₚ keys d') by (unfold keys; by rewrite Hp).
  destruct (lookup d k) as [v|] eqn:E.
  - symmetry. apply lookup_present; [by rewrite <- Hkeys|].
    rewrite <- Hp. by apply lookup_Some_elem.
  - symmetry. apply lookup_absent. rewrite <- Hkeys. by apply lookup_None_absent.
Qed.

Lemma lookup_set_other {V} (d : dict V) k k' v :
  k <> k' -> lookup (set d k v) k' = lookup d k'.
Proof.
  intros Hne. induction d as [|[k0 v0] d IH]; simpl.
  - destruct (String.eqb_spec k' k); [congruence|done].
  - destruct (String.eqb_spec k k0) as [->|_]; simpl.
    + destruct (String.eqb_spec k' k0); [congruence|done].
    + destruct (String.eqb_spec k' k0); [done|apply IH].
Qed.

(** ** Unsaturation *)

(** X4. The unsaturation does not depend on the order of the entries of
    the formula. *)
Theorem calculate_unsaturation_order_independent (f f' : formula) :
  NoDup (keys f) -> f ≡ₚ f' ->
  calculate_unsaturation f = calculate_unsaturation f'.
Proof.
  intros Hnd Hp. unfold calculate_unsaturation, get.
  by rewrite !(lookup_perm f f' _ Hnd Hp).
Qed.

(** X5. Storing a count for an element other than C, H, N, F, Cl, Br and
    I (oxygen or sulfur, say) leaves the unsaturation as it was. *)
Theorem calculate_unsaturation_ignores_other_elements (f : formula) k n :
  k ∉ ["C"; "H"; "N"; "F"; "Cl"; "Br"; "I"] ->
  calculate_unsaturation (set f k n) = calculate_unsaturation f.
Proof.
  intros Hk. unfold calculate_unsaturation, get.
  rewrite !(lookup_set_other f k _ n); [done|..];
    intros ->; apply Hk; repeat first [by left|right].
Qed.


(** ** Valence check *)

Lemma sum_valencies_Ok_inv its acc m :
  sum_valencies its acc = Ok m -> forall k, k ∈ its.*1 -> is_Some (valency !! k).
Proof.
  revert acc. induction its as [|[el c] its IH]; intros acc; simpl.
  - intros _ k Hk. by apply elem_of_nil in Hk.
  - destruct (valency !! el) as [v|] eqn:E; [|done]. intros H k Hk.
    apply elem_of_cons in Hk as [->|Hk]; [by eauto|by eapply IH].
Qed.

(** X7. The valence check never answers false: on a formula it returns
    true or raises. *)
Theorem is_valid_formula_never_false (f : formula) :
  NoDup (keys f) -> is_valid_formula f <> Ok false.
Proof.
  intros Hnd. unfold is_valid_formula.
  destruct (sum_valencies (items f) 0) as [m|e] eqn:E; [|done].
  pose proof (sum_valencies_Ok_inv _ _ _ E) as Hcov.
  rewrite (sum_valencies_total_bonds f 0 Hnd Hcov) in E. injection E as <-.
  fold (total_bonds f). intros [= H]. lia.
Qed.

(** ** Order and size of the enumeration *)

Lemma lex_lt_irrefl t : ~ lex_lt t t.
Proof.
  induction t as [|x t IH]; inversion 1; subst; [lia|by apply IH].
Qed.

Lemma seqZ_increasing m n : StronglySorted Z.lt (seqZ m n).
Proof.
  remember (Z.to_nat n) as k eqn:Hk. revert m n Hk.
  induction k as [|k IH]; intros m n Hk.
  - rewrite seqZ_nil by lia. constructor.
  - rewrite seqZ_cons by lia. constructor.
    + apply IH. lia.
    + apply Forall_forall. intros x Hx. apply elem_of_seqZ in Hx. lia.
Qed.

Lemma product_increasing (ls : list (list Z)) :
  Forall (StronglySorted Z.lt) ls -> StronglySorted lex_lt (product ls).
Proof.
  induction 1 as [|l ls Hl _ IH]; simpl; [repeat constructor|].
  induction Hl as [|x l _ IHl Hx]; simpl; [constructor|].
  apply StronglySorted_app_2; [| |done].
  - intros t1 t2 H1 H2.
    apply list_elem_of_In, in_map_iff in H1 as (s1 & <- & _).
    apply list_elem_of_In, in_flat_map in H2 as (y & Hy & H2).
    apply in_map_iff in H2 as (s2 & <- & _).
    constructor. rewrite Forall_forall in Hx. apply Hx. by apply list_elem_of_In.
  - apply (StronglySorted_fmap (cons x) lex_lt lex_lt); [|done].
    intros t1 t2 Ht. by constructor.
Qed.

Lemma strongly_sorted_sublist {A} (R : relation A) (l1 l2 : list A) :
  l1 `sublist_of` l2 -> StronglySorted R l2 -> StronglySorted R l1.
Proof.
  induction 1 as [|x l1 l2 Hsub IH|x l1 l2 Hsub IH]; intros Hs; [done|..].
  - apply StronglySorted_inv in Hs as [Hs Hx]. constructor; [by apply IH|].
    apply Forall_forall. intros y Hy. rewrite Forall_forall in Hx.
    apply Hx. by eapply elem_of_sublist.
  - apply StronglySorted_inv in Hs as [Hs _]. by apply IH.
Qed.

Lemma strongly_sorted_NoDup {A} (R : relation A) (l : list A) :
  (forall x, ~ R x x) -> StronglySorted R l -> NoDup l.
Proof.
  intros Hirr. induction 1 as [|x l _ IH Hx]; constructor; [|done].
  intros Hin. rewrite Forall_forall in Hx. by apply (Hirr x), Hx.
Qed.

Lemma filter_sublist_impl {A} (p q : A -> bool) (l : list A) :
  (forall x, p x = true -> q x = true) ->
  List.filter p l `sublist_of` List.filter q l.
Proof.
  intros Hpq. induction l as [|x l IH]; simpl; [constructor|].
  destruct (p x) eqn:Ep.
  - rewrite (Hpq x Ep). by constructor.
  - destruct (q x); [by constructor|done].
Qed.

Lemma product_cons_length {A} (l : list A) (ls : list (list A)) :
  length (product (l :: ls)) = (length l * length (product ls))%nat.
Proof.
  simpl. induction l as [|x l IH]; simpl; [done|].
  by rewrite length_app, length_map, IH.
Qed.

Lemma search_space_size (atomRanges : dict (Z * Z)) :
  length (product (ranges_of atomRanges)) = space_size atomRanges.
Proof.
  induction atomRanges as [|[k [lo hi]] ar IH]; [done|].
  change (ranges_of ((k, (lo, hi)) :: ar))
    with (range lo (hi + 1) :: ranges_of ar).
  rewrite product_cons_length, IH. unfold range. by rewrite length_seqZ.
Qed.

(** The yields of the loop are picked, in order, from the formulas of the
    points it walks. *)
Lemma generate_loop_sublist ks ms lo hi maxT combos :
  gen_yields (generate_loop ks ms lo hi maxT combos)
  `sublist_of` map (fun combo => of_items (zip ks combo)) combos.
Proof.
  induction combos as [|combo combos IH]; simpl; [constructor|].
  destruct ((sum_Z (values (of_items (zip ks combo))) =? 0)
            || (sum_Z (values (of_items (zip ks combo))) >? maxT));
    [by constructor|].
  destruct (calculate_mass (of_items (zip ks combo)) ms) as [m|e]; simpl.
  - destruct (Qle_bool lo m && Qle_bool m hi); simpl; by constructor.
  - apply sublist_nil_l.
Qed.

Lemma generate_formulas_increasing atomRanges ms minMass maxMass maxTotalAtoms :
  NoDup (keys atomRanges) ->
  StronglySorted (fun f g => lex_lt (values f) (values g))
    (gen_yields (generate_formulas atomRanges ms minMass maxMass maxTotalAtoms)).
Proof.
  intros Hnd. unfold generate_formulas.
  eapply strongly_sorted_sublist; [apply generate_loop_sublist|].
  assert (Hlen : forall combo, combo ∈ product (ranges_of atomRanges) ->
                   values (of_items (zip (keys atomRanges) combo)) = combo).
  { intros combo Hc. pose proof (product_ranges_length _ _ Hc) as Hl.
    rewrite formula_of_combo by done. by destruct (zip_keys_values _ _ Hl). }
  assert (Hs : StronglySorted lex_lt (product (ranges_of atomRanges))).
  { apply product_increasing. unfold ranges_of, range.
    apply Forall_forall. intros l Hl. apply list_elem_of_In, in_map_iff in Hl as (e & <- & _).
    apply seqZ_increasing. }
  revert Hlen Hs. generalize (product (ranges_of atomRanges)) as combos.
  induction combos as [|c combos IH]; intros Hlen Hs; simpl; [constructor|].
  apply StronglySorted_inv in Hs as [Hs Hc]. constructor.
  - apply IH; [|done]. intros c' Hc'. apply Hlen. by right.
  - rewrite Forall_forall in Hc. apply Forall_forall. intros g Hg.
    apply list_elem_of_In, in_map_iff in Hg as (c' & <- & Hc').
    apply list_elem_of_In in Hc'.
    rewrite (Hlen c) by left. rewrite (Hlen c') by (by right). by apply Hc.
Qed.

(** X8. The enumerator yields its formulas in strictly increasing
    lexicographic order of their counts, the first key of [atomRanges]
    being the most significant. *)
Theorem enumeration_is_lexicographic atomRanges ms minMass maxMass maxTotalAtoms :
  NoDup (keys atomRanges) ->
  StronglySorted (fun f g => lex_lt (values f) (values g))
    (gen_yields (generate_formulas atomRanges ms minMass maxMass maxTotalAtoms)).
Proof. apply generate_formulas_increasing. Qed.

(** X9. Widening the mass window or raising the atom limit only adds
    formulas: what the enumerator yields for a window and a limit is
    yielded, in the same relative order, for any wider window and any
    higher limit. *)
Theorem enumeration_monotone atomRanges ms lo hi lo' hi' maxT maxT' :
  NoDup (keys atomRanges) ->
  (lo' <= lo)%Q -> (hi <= hi')%Q -> maxT <= maxT' ->
  gen_yields (generate_formulas atomRanges ms lo hi maxT)
  `sublist_of` gen_yields (generate_formulas atomRanges ms lo' hi' maxT').
Proof.
  intros Hnd Hlo Hhi HmaxT. unfold generate_formulas.
  assert (Hlen : forall combo, combo ∈ product (ranges_of atomRanges) ->
                   length combo = length (keys atomRanges))
    by apply product_ranges_length.
  destruct (first_missing ms (keys atomRanges)) as [k|] eqn:E.
  - rewrite (generate_loop_missing _ ms lo hi maxT Hnd _ k E Hlen).
    destruct (existsb _ _); apply sublist_nil_l.
  - rewrite !(generate_loop_covered _ ms _ _ _ Hnd _ E Hlen), !gen_yields_of_list.
    apply filter_sublist_impl. intros f Hf.
    apply andb_prop in Hf as [Ha Hm]. apply andb_true_intro. split.
    + apply passes_atom_filter_spec in Ha. apply passes_atom_filter_spec. lia.
    + unfold mass_in_window in *. destruct (calculate_mass f ms) as [m|]; [|done].
      apply andb_prop in Hm as [H1 H2]. apply Qle_bool_iff in H1, H2.
      apply andb_true_intro. split; apply Qle_bool_iff.
      * by eapply Qle_trans.
      * by eapply Qle_trans.
Qed.

(** ** The returned list *)

Section CollectMore.
Variables (exactMass ionization : Q) (ms : gmap string Q) (ur : Q * Q).

(** The formulas of the kept candidates are picked, in order, from the
    yields. *)
Lemma collect_formulas_sublist g acc l :
  collect exactMass ionization ms ur g acc = Ok l ->
  exists new, l = acc ++ new /\ c_formula <$> new `sublist_of` gen_yields g.
Proof.
  revert acc. induction g as [|f rest IH|e]; intros acc; simpl.
  - intros [= <-]. exists []. split; [by rewrite app_nil_r|constructor].
  - destruct (calculate_mass f ms) as [m|e]; [|done].
    destruct (Qle_bool ur.1 (calculate_unsaturation f)
              && Qle_bool (calculate_unsaturation f) ur.2).
    + destruct (py_div (exactMass - m) m) as [q|e]; [|done].
      intros H. destruct (IH _ H) as (new & -> & Hsub).
      eexists (_ :: new). split; [by rewrite <- app_assoc|].
      rewrite fmap_cons. simpl. by constructor.
    + intros H. destruct (IH _ H) as (new & -> & Hsub).
      exists new. split; [done|]. by constructor.
  - done.
Qed.

(** A yielded formula whose unsaturation is in range is kept. *)
Lemma collect_complete g acc l f :
  collect exactMass ionization ms ur g acc = Ok l ->
  f ∈ gen_yields g -> unsaturation_in_range ur f = true ->
  exists c, c ∈ l /\ c_formula c = f /\ calculate_mass f ms = Ok (c_mass c).
Proof.
  unfold unsaturation_in_range.
  revert acc. induction g as [|f0 rest IH|e]; intros acc; simpl.
  - intros _ Hf. by apply elem_of_nil in Hf.
  - destruct (calculate_mass f0 ms) as [m|e] eqn:Em; [|done].
    destruct (Qle_bool ur.1 (calculate_unsaturation f0)
              && Qle_bool (calculate_unsaturation f0) ur.2) eqn:Eu.
    + destruct (py_div (exactMass - m) m) as [q|e]; [|done].
      intros H Hf Hu. apply elem_of_cons in Hf as [->|Hf]; [|by eapply IH].
      destruct (collect_sound _ _ _ _ _ _ _ H) as (new & -> & _).
      eexists. split; [|split].
      * rewrite <- app_assoc. apply elem_of_app. right. left.
      * done.
      * done.
    + intros H Hf Hu. apply elem_of_cons in Hf as [->|Hf]; [congruence|].
      by eapply IH.
  - done.
Qed.
End CollectMore.

Lemma sorted_fixed {A} (key : A -> Q) (l : list A) :
  Sorted (key_le key) l -> sort_by_key key l = l.
Proof.
  induction 1 as [|x l _ IH Hhd]; simpl; [done|]. rewrite IH.
  destruct Hhd as [|y l Hxy]; simpl; [done|].
  apply Qle_bool_iff in Hxy. by rewrite Hxy.
Qed.

(** What a returned candidate is known to satisfy, whatever the inputs. *)
Lemma find_molecular_formulas_sound
    targetMass ppmTolerance atomRanges ms ionization ur l c :
  (find_molecular_formulas targetMass ppmTolerance atomRanges ms ionization ur).2
    = Ok l ->
  c ∈ l ->
  scored (targetMass - ionization)%Q ionization ms ur c
  /\ passes_atom_filter default_maxTotalAtoms (total_atoms (c_formula c)) = true
  /\ mass_in_window ms (mass_window targetMass ppmTolerance ionization).1
       (mass_window targetMass ppmTolerance ionization).2 (c_formula c) = true.
Proof.
  rewrite find_molecular_formulas_eq. simpl.
  destruct (enumeration_order _ _ _ _ _ _) as [l0|e] eqn:E; [|done].
  intros [= <-] Hc. rewrite <- (sort_by_key_perm abs_deviation l0) in Hc.
  apply collect_sound in E as (new & -> & Hnew). simpl in Hc.
  rewrite Forall_forall in Hnew. destruct (Hnew c Hc) as [Hy Hs].
  split; [done|]. unfold generate_formulas in Hy.
  by apply generate_loop_yields in Hy as (combo & _ & _ & Ha & Hw).
Qed.

(** X10. Every returned candidate is consistent: its mass is the mass of
    its formula and is not zero, its m/z is mass + ionization, its
    deviation is ((exactMass - mass) / mass) * 1e6, its unsaturation is
    that of its formula and lies in the requested range, bounds included. *)
Theorem returned_candidates_scored
    targetMass ppmTolerance atomRanges ms ionization ur l :
  (find_molecular_formulas targetMass ppmTolerance atomRanges ms ionization ur).2
    = Ok l ->
  forall c, c ∈ l ->
    calculate_mass (c_formula c) ms = Ok (c_mass c)
    /\ ~ (c_mass c == 0)%Q
    /\ c_mz c = (c_mass c + ionization)%Q
    /\ c_deviation c
       = ((targetMass - ionization - c_mass c) / c_mass c * 1000000)%Q
    /\ c_unsaturation c = calculate_unsaturation (c_formula c)
    /\ (ur.1 <= c_unsaturation c)%Q /\ (c_unsaturation c <= ur.2)%Q.
Proof.
  intros Hl c Hc.
  by destruct (find_molecular_formulas_sound _ _ _ _ _ _ _ _ Hl Hc) as [Hs _].
Qed.

(** X11. The total atom count of a returned formula is never 0 and never
    above 150, whatever the ranges and the tables. *)
Theorem returned_atom_count_bounded
    targetMass ppmTolerance atomRanges ms ionization ur l :
  (find_molecular_formulas targetMass ppmTolerance atomRanges ms ionization ur).2
    = Ok l ->
  forall c, c ∈ l ->
    total_atoms (c_formula c) <> 0 /\ total_atoms (c_formula c) <= 150.
Proof.
  intros Hl c Hc.
  destruct (find_molecular_formulas_sound _ _ _ _ _ _ _ _ Hl Hc) as (_ & Ha & _).
  by apply passes_atom_filter_spec in Ha.
Qed.

(** X12. The sign of the deviation of a returned candidate of positive
    mass tells on which side of the de-ionized target its mass lies:
    positive below it, negative above it, zero on it. *)
Theorem deviation_sign
    targetMass ppmTolerance atomRanges ms ionization ur l :
  (find_molecular_formulas targetMass ppmTolerance atomRanges ms ionization ur).2
    = Ok l ->
  forall c, c ∈ l -> (0 < c_mass c)%Q ->
    ((c_mass c < targetMass - ionization)%Q -> (0 < c_deviation c)%Q)
    /\ ((targetMass - ionization < c_mass c)%Q -> (c_deviation c < 0)%Q)
    /\ ((c_mass c == targetMass - ionization)%Q -> (c_deviation c == 0)%Q).
Proof.
  intros Hl c Hc Hpos.
  destruct (find_molecular_formulas_sound _ _ _ _ _ _ _ _ Hl Hc)
    as ((_ & _ & _ & -> & _) & _).
  set (m := c_mass c) in *. set (x := (targetMass - ionization)%Q).
  assert (Hk : (0 < / m * 1000000)%Q).
  { apply Qmult_lt_0_compat; [by apply Qinv_lt_0_compat|reflexivity]. }
  assert (Heq : ((x - m) / m * 1000000 == (x - m) * (/ m * 1000000))%Q).
  { unfold Qdiv. by rewrite Qmult_assoc. }
  rewrite Heq. split; [|split].
  - intros Hlt. apply Qmult_lt_0_compat; [|done].
    apply Qlt_minus_iff in Hlt. exact Hlt.
  - intros Hlt.
    assert (H0 : (0 == 0 * (/ m * 1000000))%Q) by ring. rewrite H0.
    apply Qmult_lt_compat_r; [done|].
    apply Qlt_minus_iff. assert (Hd : (0 + - (x - m) == m + - x)%Q) by ring.
    rewrite Hd. apply Qlt_minus_iff in Hlt. exact Hlt.
  - intros He. rewrite He. ring.
Qed.

(** The formulas of a returned list are picked from the yields of the
    enumerator, up to the order the final sort gives them. *)
Lemma returned_formulas_from_yields
    targetMass ppmTolerance atomRanges ms ionization ur l :
  (find_molecular_formulas targetMass ppmTolerance atomRanges ms ionization ur).2
    = Ok l ->
  exists l0, l0 ≡ₚ l
    /\ c_formula <$> l0 `sublist_of`
       gen_yields (generate_formulas atomRanges ms
                     (mass_window targetMass ppmTolerance ionization).1
                     (mass_window targetMass ppmTolerance ionization).2
                     default_maxTotalAtoms).
Proof.
  rewrite find_molecular_formulas_eq. simpl.
  destruct (enumeration_order _ _ _ _ _ _) as [l0|e] eqn:E; [|done].
  intros [= <-]. exists l0. split; [apply sort_by_key_perm|].
  by apply collect_formulas_sublist in E as (new & -> & Hsub).
Qed.

(** X13. No formula is reported twice. *)
Theorem returned_formulas_distinct
    targetMass ppmTolerance atomRanges ms ionization ur l :
  NoDup (keys atomRanges) ->
  (find_molecular_formulas targetMass ppmTolerance atomRanges ms ionization ur).2
    = Ok l ->
  NoDup (c_formula <$> l).
Proof.
  intros Hnd Hl.
  destruct (returned_formulas_from_yields _ _ _ _ _ _ _ Hl) as (l0 & Hp & Hsub).
  rewrite <- Hp. refine (sublist_NoDup _ _ _ Hsub).
  eapply (strongly_sorted_NoDup (fun f g => lex_lt (values f) (values g))).
  - intros f. apply lex_lt_irrefl.
  - by apply generate_formulas_increasing.
Qed.

(** X14. The search returns at most as many candidates as the Cartesian
    product of the ranges has points, the product over the entries of
    max - min + 1 (0 for an entry with max < min). *)
Theorem result_count_bounded
    targetMass ppmTolerance atomRanges ms ionization ur l :
  (find_molecular_formulas targetMass ppmTolerance atomRanges ms ionization ur).2
    = Ok l ->
  (length l <= space_size atomRanges)%nat.
Proof.
  intros Hl.
  destruct (returned_formulas_from_yields _ _ _ _ _ _ _ Hl) as (l0 & Hp & Hsub).
  rewrite <- Hp, <- (length_fmap c_formula), <- search_space_size.
  etrans; [exact (sublist_length _ _ Hsub)|].
  unfold generate_formulas.
  etrans; [exact (sublist_length _ _ (generate_loop_sublist _ _ _ _ _ _))|].
  by rewrite length_map.
Qed.

Lemma generate_loop_all_skipped ks ms lo hi maxT combos :
  NoDup ks ->
  (forall combo, combo ∈ combos -> length combo = length ks) ->
  (forall combo, combo ∈ combos -> passes_atom_filter maxT (sum_Z combo) = false) ->
  generate_loop ks ms lo hi maxT combos = GDone.
Proof.
  intros Hnd. induction combos as [|combo combos IH]; intros Hlen Hskip; [done|].
  simpl. rewrite (formula_of_combo ks combo Hnd (Hlen combo (list_elem_of_here _ _))).
  destruct (zip_keys_values ks combo (Hlen combo (list_elem_of_here _ _))) as [_ Hv].
  rewrite Hv. pose proof (Hskip combo (list_elem_of_here _ _)) as Hs.
  unfold passes_atom_filter in Hs. apply negb_false_iff in Hs. rewrite Hs.
  apply IH; intros c Hc; [apply Hlen|apply Hskip]; by right.
Qed.

Lemma zero_ranges_zero_sum (atomRanges : dict (Z * Z)) combo :
  Forall (fun e => e.2.1 = 0 /\ e.2.2 = 0) atomRanges ->
  combo ∈ product (ranges_of atomRanges) -> sum_Z combo = 0.
Proof.
  intros Hz Hc. apply elem_of_product in Hc. unfold ranges_of, items in Hc.
  revert combo Hc. induction Hz as [|[k [lo hi]] ar [Hlo Hhi] _ IH]; intros combo Hc.
  - by inversion Hc.
  - simpl in *. subst. inversion Hc as [|x r t rs Hx Ht]; subst.
    apply elem_of_range in Hx. rewrite sum_Z_cons, (IH _ Ht). lia.
Qed.

(** X15. When every range is (0, 0), and so also when [atomRanges] is
    empty, the only point is the formula without atoms: the search
    returns the empty list and raises nothing, whatever the mass table. *)
Theorem zero_ranges_return_empty
    targetMass ppmTolerance atomRanges ms ionization ur :
  NoDup (keys atomRanges) ->
  Forall (fun e => e.2.1 = 0 /\ e.2.2 = 0) atomRanges ->
  (find_molecular_formulas targetMass ppmTolerance atomRanges ms ionization ur).2
    = Ok [].
Proof.
  intros Hnd Hz. rewrite find_molecular_formulas_eq. simpl.
  unfold enumeration_order, generate_formulas.
  rewrite generate_loop_all_skipped; [done|done|apply product_ranges_length|].
  intros combo Hc. by rewrite (zero_ranges_zero_sum _ _ Hz Hc).
Qed.

(** X16. The search misses nothing: a formula within the ranges, with a
    non-zero atom count of at most 150, a mass inside the window and an
    unsaturation inside the range, is the formula of a returned
    candidate. *)
Theorem search_complete
    targetMass ppmTolerance atomRanges ms ionization ur l f m :
  NoDup (keys atomRanges) ->
  (find_molecular_formulas targetMass ppmTolerance atomRanges ms ionization ur).2
    = Ok l ->
  within_ranges atomRanges f ->
  total_atoms f <> 0 -> total_atoms f <= 150 ->
  calculate_mass f ms = Ok m ->
  ((mass_window targetMass ppmTolerance ionization).1 <= m)%Q ->
  (m <= (mass_window targetMass ppmTolerance ionization).2)%Q ->
  (ur.1 <= calculate_unsaturation f)%Q -> (calculate_unsaturation f <= ur.2)%Q ->
  exists c, c ∈ l /\ c_formula c = f /\ c_mass c = m.
Proof.
  intros Hnd Hl Hw Hnz Hmax Hm Hlo Hhi Hu1 Hu2.
  rewrite find_molecular_formulas_eq in Hl. simpl in Hl.
  destruct (enumeration_order _ _ _ _ _ _) as [l0|e] eqn:E; [|done].
  injection Hl as <-. unfold enumeration_order in E.
  destruct (within_ranges_inv _ _ Hw) as [Hkeys Hvals].
  assert (Hcov : first_missing ms (keys atomRanges) = None).
  { rewrite <- Hkeys. unfold calculate_mass, items in Hm.
    by apply sum_masses_Ok_inv in Hm. }
  assert (Hy : f ∈ gen_yields (generate_formulas atomRanges ms
                 (mass_window targetMass ppmTolerance ionization).1
                 (mass_window targetMass ppmTolerance ionization).2
                 default_maxTotalAtoms)).
  { unfold generate_formulas.
    rewrite generate_loop_covered, gen_yields_of_list;
      [|done|done|apply product_ranges_length].
    apply list_elem_of_In, filter_In. split.
    - apply list_elem_of_In. by apply (elem_of_search_space atomRanges f).
    - apply andb_true_intro. split.
      + by apply passes_atom_filter_spec.
      + unfold mass_in_window. rewrite Hm.
        apply Qle_bool_iff in Hlo, Hhi. by rewrite Hlo, Hhi. }
  destruct (collect_complete _ _ _ _ _ _ _ f E Hy) as (c & Hc & Hf & Hcm).
  { unfold unsaturation_in_range. apply Qle_bool_iff in Hu1, Hu2.
    by rewrite Hu1, Hu2. }
  exists c. split; [by rewrite <- (sort_by_key_perm abs_deviation l0)|].
  split; [done|]. congruence.
Qed.

(** X17. With a tolerance of 0 ppm only exact matches are returned: the
    mass of every candidate equals the de-ionized target and its
    deviation is 0. *)
Theorem zero_tolerance_exact_match
    targetMass ppmTolerance atomRanges ms ionization ur l :
  (ppmTolerance == 0)%Q ->
  (find_molecular_formulas targetMass ppmTolerance atomRanges ms ionization ur).2
    = Ok l ->
  forall c, c ∈ l ->
    (c_mass c == targetMass - ionization)%Q /\ (c_deviation c == 0)%Q.
Proof.
  intros Hz Hl c Hc.
  destruct (find_molecular_formulas_sound _ _ _ _ _ _ _ _ Hl Hc)
    as ((Hm & _ & _ & Hd & _) & _ & Hw).
  unfold mass_in_window, mass_window in Hw. rewrite Hm in Hw. cbn [fst snd] in Hw.
  apply andb_prop in Hw as [Hlo Hhi]. apply Qle_bool_iff in Hlo, Hhi.
  assert (Heq : (c_mass c == targetMass - ionization)%Q).
  { apply Qle_antisym.
    - eapply Qle_trans; [exact Hhi|]. rewrite Hz. apply Qle_lteq. right. field.
    - eapply Qle_trans; [|exact Hlo]. rewrite Hz. apply Qle_lteq. right. field. }
  split; [done|]. rewrite Hd. unfold Qdiv.
  assert (H0 : (targetMass - ionization - c_mass c == 0)%Q) by (rewrite Heq; ring).
  rewrite H0. ring.
Qed.

Lemma returned_list_sort_fixed
    targetMass ppmTolerance atomRanges ms ionization ur l :
  (find_molecular_formulas targetMass ppmTolerance atomRanges ms ionization ur).2
    = Ok l ->
  sort_by_key abs_deviation l = l.
Proof.
  rewrite find_molecular_formulas_eq. simpl.
  destruct (enumeration_order _ _ _ _ _ _) as [l0|e]; [|done].
  intros [= <-]. apply sorted_fixed, sort_by_key_sorted.
Qed.

(** X18. The list the search returns is already in the order the script's
    own sort asks for: sorting it a second time by absolute deviation
    changes nothing. *)
Theorem second_sort_changes_nothing
    targetMass ppmTolerance atomRanges ms ionization ur l :
  (find_molecular_formulas targetMass ppmTolerance atomRanges ms ionization ur).2
    = Ok l ->
  sort_by_key abs_deviation l = l.
Proof. apply returned_list_sort_fixed. Qed.

(** Over well-formed ranges and a table of positive masses the search
    returns a list. *)
Lemma find_molecular_formulas_returns
    targetMass ppmTolerance atomRanges ms ionization ur :
  NoDup (keys atomRanges) ->
  (forall k, k ∈ keys atomRanges -> exists q, ms !! k = Some q /\ (0 < q)%Q) ->
  Forall (fun e => 0 <= e.2.1) atomRanges ->
  exists l,
    (find_molecular_formulas targetMass ppmTolerance atomRanges ms ionization ur).2
      = Ok l.
Proof.
  intros Hnd Hpos Hnn.
  assert (Hcov : forall k, k ∈ keys atomRanges -> is_Some (ms !! k)).
  { intros k Hk. destruct (Hpos k Hk) as (q & -> & _). by eexists. }
  rewrite find_molecular_formulas_eq. simpl. unfold enumeration_order.
  destruct (generate_formulas_filter atomRanges ms
              (mass_window targetMass ppmTolerance ionization).1
              (mass_window targetMass ppmTolerance ionization).2
              default_maxTotalAtoms Hnd Hcov Hnn) as [Heq Hiff].
  rewrite Heq.
  destruct (collect_returns (targetMass - ionization)%Q ionization ms ur
              (List.filter (admissible ms (mass_window targetMass ppmTolerance ionization).1
                              (mass_window targetMass ppmTolerance ionization).2
                              default_maxTotalAtoms) (search_space atomRanges)) [])
    as [l Hl]; [|rewrite Hl; by eauto].
  apply Forall_forall. intros f Hf.
  rewrite <- (gen_yields_of_list (List.filter _ _)), <- Heq in Hf.
  apply Hiff in Hf as (Hw & Htot & m & Hm & _).
  exists m. split; [done|].
  assert (Hlt : (0 < m)%Q).
  { eapply calculate_mass_positive; [| |exact (proj1 Htot)|exact Hm].
    - intros k q Hk Hq. destruct (within_ranges_inv _ _ Hw) as [Hkeys _].
      rewrite Hkeys in Hk. destruct (Hpos k Hk) as (q' & Hq' & Hq0). congruence.
    - by eapply within_ranges_nonneg. }
  intros Hz. rewrite Hz in Hlt. by apply Qlt_irrefl in Hlt.
Qed.

(** ** The script *)

Lemma py_getitem_nonneg {A} (l : list A) i :
  0 <= i < Z.of_nat (length l) -> py_getitem l i = l !! Z.to_nat i.
Proof.
  intros Hi. unfold py_getitem.
  destruct (Z.ltb_spec i 0); [lia|].
  destruct (Z.ltb_spec i 0); [lia|]. destruct (Z.leb_spec (Z.of_nat (length l)) i); [lia|done].
Qed.

Lemma py_getitem_negative {A} (l : list A) i :
  - Z.of_nat (length l) <= i < 0 ->
  py_getitem l i = l !! Z.to_nat (i + Z.of_nat (length l)).
Proof.
  intros Hi. unfold py_getitem.
  destruct (Z.ltb_spec i 0); [|lia].
  destruct (Z.ltb_spec (i + Z.of_nat (length l)) 0); [lia|].
  destruct (Z.leb_spec (Z.of_nat (length l)) (i + Z.of_nat (length l))); [lia|done].
Qed.

Lemma py_getitem_outside {A} (l : list A) i :
  i < - Z.of_nat (length l) \/ Z.of_nat (length l) <= i -> py_getitem l i = None.
Proof.
  intros Hi. unfold py_getitem.
  destruct (Z.ltb_spec i 0).
  - destruct (Z.ltb_spec (i + Z.of_nat (length l)) 0); [done|lia].
  - destruct (Z.ltb_spec i 0); [lia|].
    destruct (Z.leb_spec (Z.of_nat (length l)) i); [done|lia].
Qed.

Lemma py_getitem_Some_inv {A} (l : list A) i x :
  py_getitem l i = Some x ->
  - Z.of_nat (length l) <= i < Z.of_nat (length l).
Proof.
  intros H. destruct (decide (- Z.of_nat (length l) <= i < Z.of_nat (length l)));
    [done|]. rewrite py_getitem_outside in H by lia. done.
Qed.

(** In a dictionary, the entry at a position is the one its key leads to. *)
Lemma entry_of_key (cases : list (string * Q)) (j : nat) :
  NoDup (keys cases) ->
  match keys cases !! j with
  | None => None
  | Some name =>
      match lookup cases name with
      | None => None
      | Some value => Some (name, value)
      end
  end = cases !! j.
Proof.
  intros Hnd. unfold keys at 1. rewrite list_lookup_fmap.
  destruct (cases !! j) as [[name value]|] eqn:E; [|done].
  change (fst <$> Some (name, value)) with (Some name). cbv iota beta.
  rewrite (lookup_present cases name value Hnd); [done|].
  by eapply list_elem_of_lookup_2.
Qed.

Lemma keys_length {V} (d : list (string * V)) : length (keys d) = length d.
Proof. unfold keys. apply length_fmap. Qed.

Lemma select_ionization_nonneg (cases : list (string * Q)) choice :
  NoDup (keys cases) -> 1 <= choice <= Z.of_nat (length cases) ->
  MolecularFormula.select_ionization cases choice = cases !! Z.to_nat (choice - 1).
Proof.
  intros Hnd Hc. unfold MolecularFormula.select_ionization.
  rewrite py_getitem_nonneg by (rewrite keys_length; lia).
  by apply entry_of_key.
Qed.

Lemma select_ionization_negative (cases : list (string * Q)) choice :
  NoDup (keys cases) -> - Z.of_nat (length cases) < choice <= 0 ->
  MolecularFormula.select_ionization cases choice
  = cases !! Z.to_nat (choice - 1 + Z.of_nat (length cases)).
Proof.
  intros Hnd Hc. unfold MolecularFormula.select_ionization.
  rewrite py_getitem_negative by (rewrite keys_length; lia).
  rewrite keys_length. by apply entry_of_key.
Qed.

Lemma select_ionization_outside (cases : list (string * Q)) choice :
  choice <= - Z.of_nat (length cases) \/ Z.of_nat (length cases) < choice ->
  MolecularFormula.select_ionization cases choice = None.
Proof.
  intros Hc. unfold MolecularFormula.select_ionization.
  rewrite py_getitem_outside; [done|]. rewrite keys_length. lia.
Qed.

(** X19. A menu number from 1 to the number of cases selects the case
    displayed under that number: its name and its mass adjustment. *)
Theorem menu_number_selects_its_case (cases : list (string * Q)) choice :
  NoDup (keys cases) -> 1 <= choice <= Z.of_nat (length cases) ->
  MolecularFormula.select_ionization cases choice = cases !! Z.to_nat (choice - 1)
  /\ is_Some (MolecularFormula.select_ionization cases choice).
Proof.
  intros Hnd Hc. rewrite select_ionization_nonneg by done. split; [done|].
  apply lookup_lt_is_Some. lia.
Qed.

(** X20. The number 0 and the negative numbers down to 1 - n, n being
    the number of cases, are not refused: they select from the end of the
    menu, 0 giving the last case. *)
Theorem menu_number_zero_wraps (cases : list (string * Q)) choice :
  NoDup (keys cases) -> - Z.of_nat (length cases) < choice <= 0 ->
  MolecularFormula.select_ionization cases choice
  = cases !! Z.to_nat (choice - 1 + Z.of_nat (length cases))
  /\ is_Some (MolecularFormula.select_ionization cases choice)
  /\ (choice = 0 -> MolecularFormula.select_ionization cases choice = last cases).
Proof.
  intros Hnd Hc. rewrite select_ionization_negative by done.
  split; [done|]. split.
  - apply lookup_lt_is_Some. lia.
  - intros ->. rewrite last_lookup. f_equal. lia.
Qed.

(** X21. Any other number, above n or at most -n, ends the script with
    an index error before any search. *)
Theorem menu_number_out_of_range (cases : list (string * Q)) choice :
  choice <= - Z.of_nat (length cases) \/ Z.of_nat (length cases) < choice ->
  MolecularFormula.select_ionization cases choice = None.
Proof. apply select_ionization_outside. Qed.

Lemma shipped_ranges_distinct : NoDup (keys MolecularFormula.atomRanges).
Proof. apply (bool_decide_unpack (NoDup _)). vm_compute. exact I. Qed.

Lemma shipped_masses_positive k :
  k ∈ keys MolecularFormula.atomRanges ->
  exists q, MolecularFormula.monoisotopicMasses !! k = Some q /\ (0 < q)%Q.
Proof.
  intros Hk. vm_compute in Hk.
  repeat (apply elem_of_cons in Hk as [->|Hk]);
    [..|by apply elem_of_nil in Hk];
    (eexists; split; [vm_compute; reflexivity|reflexivity]).
Qed.

Lemma shipped_ranges_nonneg : Forall (fun e => 0 <= e.2.1) MolecularFormula.atomRanges.
Proof. repeat constructor; simpl; lia. Qed.

Lemma shipped_cases_distinct : NoDup (keys MolecularFormula.ionizationCases).
Proof. apply (bool_decide_unpack (NoDup _)). vm_compute. exact I. Qed.

(** X22. With the shipped ranges and masses the script reaches its
    display for every target mass and accuracy and every menu number from
    -5 to 6: the search raises nothing there, and the list displayed is
    the list the search returned for the selected mass adjustment. For
    any other number the script stops with an index error. *)
Theorem script_fails_only_on_menu_number targetMass accuracyppm ionizationChoice :
  (forall e, MolecularFormula.main targetMass accuracyppm ionizationChoice <> Uncaught e)
  /\ (MolecularFormula.main targetMass accuracyppm ionizationChoice = IndexError
      <-> ionizationChoice <= -6 \/ 6 < ionizationChoice)
  /\ (forall l,
        MolecularFormula.main targetMass accuracyppm ionizationChoice = Formulas l ->
        exists name value,
          MolecularFormula.select_ionization MolecularFormula.ionizationCases
            ionizationChoice = Some (name, value)
          /\ (find_molecular_formulas targetMass accuracyppm
                MolecularFormula.atomRanges MolecularFormula.monoisotopicMasses
                value MolecularFormula.unsaturationRange).2 = Ok l).
Proof.
  unfold MolecularFormula.main.
  destruct (MolecularFormula.select_ionization MolecularFormula.ionizationCases
              ionizationChoice) as [[name value]|] eqn:Esel.
  - destruct (find_molecular_formulas_returns targetMass accuracyppm
                MolecularFormula.atomRanges MolecularFormula.monoisotopicMasses
                value MolecularFormula.unsaturationRange
                shipped_ranges_distinct shipped_masses_positive shipped_ranges_nonneg)
      as [l Hl].
    rewrite Hl, (returned_list_sort_fixed _ _ _ _ _ _ _ Hl).
    split; [done|]. split.
    + split; [done|]. intros Hout.
      rewrite select_ionization_outside in Esel; [done|].
      change (Z.of_nat (length MolecularFormula.ionizationCases)) with 6. lia.
    + intros l' [= <-]. by exists name, value.
  - split; [done|]. split; [|done]. split; [|done]. intros _.
    destruct (decide (ionizationChoice <= -6 \/ 6 < ionizationChoice)) as [|Hin];
      [done|]. exfalso.
    destruct (decide (1 <= ionizationChoice)) as [Hpos|Hneg].
    + rewrite select_ionization_nonneg in Esel;
        [|apply shipped_cases_distinct
         |change (Z.of_nat (length MolecularFormula.ionizationCases)) with 6; lia].
      apply lookup_ge_None in Esel.
      change (length MolecularFormula.ionizationCases) with 6%nat in Esel. lia.
    + rewrite select_ionization_negative in Esel;
        [|apply shipped_cases_distinct
         |change (Z.of_nat (length MolecularFormula.ionizationCases)) with 6; lia].
      apply lookup_ge_None in Esel.
      change (length MolecularFormula.ionizationCases) with 6%nat in Esel. lia.
Qed.

(** ** The formula string *)

Lemma append_empty_inv (s1 s2 : string) : s1 +:+ s2 = "" -> s1 = "" /\ s2 = "".
Proof. destruct s1; simpl; [done|discriminate]. Qed.

Lemma pretty_N_go_nonempty (x : N) (s : string) : s <> "" -> pretty_N_go x s <> "".
Proof.
  revert s. induction (N.lt_wf_0 x) as [x _ IH]; intros s Hs.
  assert (x = 0 \/ 0 < x)%N as [->|Hx] by lia.
  - by rewrite pretty_N_go_0.
  - rewrite pretty_N_go_step by done. apply IH; [by apply N.div_lt|done].
Qed.

Lemma pretty_positive_count_nonempty (n : Z) : 0 < n -> pretty n <> "".
Proof.
  destruct n as [|p|p]; try lia. intros _.
  unfold pretty, pretty_Z, pretty, pretty_positive, pretty, pretty_N.
  destruct (decide (N.pos p = 0%N)) as [|_]; [done|].
  rewrite pretty_N_go_step by lia. by apply pretty_N_go_nonempty.
Qed.

Lemma positive_sum_has_positive (l : list Z) :
  Forall (fun c => 0 <= c) l -> 0 < sum_Z l -> exists c, c ∈ l /\ 0 < c.
Proof.
  induction 1 as [|x l Hx _ IH]; [unfold sum_Z; simpl; lia|].
  rewrite sum_Z_cons. intros Hs. destruct (decide (0 < x)) as [Hpos|Hz].
  - exists x. split; [by left|done].
  - destruct IH as (c & Hc & Hc0); [lia|]. exists c. split; [by right|done].
Qed.

Lemma formula_str_nonempty (f : formula) :
  (exists c, c ∈ values f /\ 0 < c) -> formula_str f <> "".
Proof.
  unfold values. induction f as [|[k n] f IH]; intros (c & Hc & Hc0).
  - by apply elem_of_nil in Hc.
  - simpl. destruct (Z.ltb_spec 0 n) as [Hn|Hn].
    + intros H. apply append_empty_inv in H as [_ H].
      apply append_empty_inv in H as [H _].
      by apply (pretty_positive_count_nonempty n).
    + apply IH. exists c. split; [|done].
      rewrite fmap_cons in Hc. apply elem_of_cons in Hc as [->|Hc]; [simpl in *; lia|done].
Qed.

(** X23. Entries whose count is 0, or below, leave no trace in the
    displayed string: it is the string of the formula without them. *)
Theorem formula_str_omits_zero_counts (f : formula) :
  formula_str f = formula_str (List.filter (fun e => 0 <? e.2) f).
Proof.
  induction f as [|[k n] f IH]; [done|]. simpl.
  destruct (0 <? n) eqn:E; simpl; [rewrite E|]; by rewrite IH.
Qed.

(** X24. Over ranges whose bounds are not negative, the string displayed
    for a returned candidate is never empty. *)
Theorem returned_formula_str_nonempty
    targetMass ppmTolerance atomRanges ms ionization ur l :
  NoDup (keys atomRanges) ->
  Forall (fun e => 0 <= e.2.1) atomRanges ->
  (find_molecular_formulas targetMass ppmTolerance atomRanges ms ionization ur).2
    = Ok l ->
  forall c, c ∈ l -> formula_str (c_formula c) <> "".
Proof.
  intros Hnd Hnn Hl c Hc.
  destruct (find_molecular_formulas_sound _ _ _ _ _ _ _ _ Hl Hc) as (_ & Ha & _).
  apply passes_atom_filter_spec in Ha as [Hnz _].
  destruct (returned_formulas_from_yields _ _ _ _ _ _ _ Hl) as (l0 & Hp & Hsub).
  assert (Hy : c_formula c ∈ gen_yields (generate_formulas atomRanges ms
                 (mass_window targetMass ppmTolerance ionization).1
                 (mass_window targetMass ppmTolerance ionization).2
                 default_maxTotalAtoms)).
  { eapply elem_of_sublist; [|exact Hsub]. apply list_elem_of_fmap.
    exists c. split; [done|]. by rewrite Hp. }
  apply generate_formulas_within in Hy as (Hw & _); [|done].
  pose proof (within_ranges_nonneg _ _ Hnn Hw) as Hvals.
  apply formula_str_nonempty, positive_sum_has_positive; [done|].
  pose proof (sum_Z_nonneg _ Hvals). unfold total_atoms in Hnz. lia.
Qed.

(** ** The further properties on sample inputs *)

Ltac qle := apply Qle_bool_iff; vm_compute; reflexivity.



Lemma calculate_mass_defined_iff_witness :
  calculate_mass sodium_methoxide masses_CH = Raise (KeyError "O")
  /\ exists k, KeyError "O" = KeyError k
       /\ first_missing masses_CH (keys sodium_methoxide) = Some k
       /\ k ∈ keys sodium_methoxide /\ masses_CH !! k = None.
Proof.
  assert (H : calculate_mass sodium_methoxide masses_CH = Raise (KeyError "O"))
    by (vm_compute; reflexivity).
  split; [exact H|].
  exact (proj2 (calculate_mass_defined_iff sodium_methoxide masses_CH) _ H).
Defined.

Lemma calculate_unsaturation_order_independent_witness :
  NoDup (keys methane)
  /\ methane ≡ₚ [("H", 4); ("C", 1)]
  /\ calculate_unsaturation methane = calculate_unsaturation [("H", 4); ("C", 1)].
Proof.
  assert (Hnd : NoDup (keys methane)) by distinct_keys.
  assert (Hp : methane ≡ₚ [("H", 4); ("C", 1)]) by apply perm_swap.
  split; [exact Hnd|]. split; [exact Hp|].
  exact (calculate_unsaturation_order_independent methane _ Hnd Hp).
Defined.

Lemma calculate_unsaturation_ignores_other_elements_witness :
  ("O" ∉ ["C"; "H"; "N"; "F"; "Cl"; "Br"; "I"])
  /\ calculate_unsaturation (set methane "O" 1) = calculate_unsaturation methane.
Proof.
  assert (Hk : "O" ∉ ["C"; "H"; "N"; "F"; "Cl"; "Br"; "I"]).
  { intros H. repeat (apply elem_of_cons in H as [H'|H]; [discriminate|]).
    by apply elem_of_nil in H. }
  split; [exact Hk|].
  exact (calculate_unsaturation_ignores_other_elements methane "O" 1 Hk).
Defined.

Lemma is_valid_formula_never_false_witness :
  NoDup (keys sodium_methoxide) /\ is_valid_formula sodium_methoxide <> Ok false.
Proof.
  assert (Hnd : NoDup (keys sodium_methoxide)) by distinct_keys.
  split; [exact Hnd|]. exact (is_valid_formula_never_false sodium_methoxide Hnd).
Defined.

Lemma enumeration_is_lexicographic_witness :
  NoDup (keys ranges_CH)
  /\ StronglySorted (fun f g => lex_lt (values f) (values g))
       (gen_yields (generate_formulas ranges_CH masses_CH 0 60 150)).
Proof.
  assert (Hnd : NoDup (keys ranges_CH)) by distinct_keys.
  split; [exact Hnd|].
  exact (enumeration_is_lexicographic ranges_CH masses_CH 0 60 150 Hnd).
Defined.

Lemma enumeration_monotone_witness :
  NoDup (keys ranges_CH)
  /\ gen_yields (generate_formulas ranges_CH masses_CH 10 20 3)
     `sublist_of` gen_yields (generate_formulas ranges_CH masses_CH 0 60 150).
Proof.
  assert (Hnd : NoDup (keys ranges_CH)) by distinct_keys.
  split; [exact Hnd|].
  apply (enumeration_monotone ranges_CH masses_CH 10 20 0 60 3 150 Hnd);
    [qle|qle|lia].
Defined.

Lemma returned_formulas_distinct_witness :
  exists l,
    (find_molecular_formulas 30 1000000 ranges_CH masses_CH 0 (-10 # 1, 10 # 1)%Q).2
      = Ok l
    /\ NoDup (c_formula <$> l).
Proof.
  assert (Hnd : NoDup (keys ranges_CH)) by distinct_keys.
  eexists. split; [vm_compute; reflexivity|].
  refine (returned_formulas_distinct
            30 1000000 ranges_CH masses_CH 0 (-10 # 1, 10 # 1)%Q _ Hnd _).
  vm_compute. reflexivity.
Defined.

Lemma result_count_bounded_witness :
  exists l,
    (find_molecular_formulas 30 1000000 ranges_CH masses_CH 0 (-10 # 1, 10 # 1)%Q).2
      = Ok l
    /\ (length l <= space_size ranges_CH)%nat.
Proof.
  eexists. split; [vm_compute; reflexivity|].
  refine (result_count_bounded
            30 1000000 ranges_CH masses_CH 0 (-10 # 1, 10 # 1)%Q _ _).
  vm_compute. reflexivity.
Defined.

Lemma zero_ranges_return_empty_witness :
  NoDup (keys ranges_CNa_zero)
  /\ Forall (fun e => e.2.1 = 0 /\ e.2.2 = 0) ranges_CNa_zero
  /\ (find_molecular_formulas 30 10 ranges_CNa_zero ∅ 0 (0, 100)%Q).2 = Ok [].
Proof.
  assert (Hnd : NoDup (keys ranges_CNa_zero)) by distinct_keys.
  assert (Hz : Forall (fun e => e.2.1 = 0 /\ e.2.2 = 0) ranges_CNa_zero).
  { repeat constructor. }
  split; [exact Hnd|]. split; [exact Hz|].
  exact (zero_ranges_return_empty 30 10 ranges_CNa_zero ∅ 0 (0, 100)%Q Hnd Hz).
Defined.

Lemma returned_candidates_scored_witness :
  exists l,
    (find_molecular_formulas 30 1000000 ranges_CH masses_CH 0 (-10 # 1, 10 # 1)%Q).2
      = Ok l
    /\ forall c, c ∈ l ->
         calculate_mass (c_formula c) masses_CH = Ok (c_mass c)
         /\ ~ (c_mass c == 0)%Q
         /\ c_mz c = (c_mass c + 0)%Q
         /\ c_deviation c = ((30 - 0 - c_mass c) / c_mass c * 1000000)%Q
         /\ c_unsaturation c = calculate_unsaturation (c_formula c)
         /\ (-10 # 1 <= c_unsaturation c)%Q /\ (c_unsaturation c <= 10 # 1)%Q.
Proof.
  eexists. split; [vm_compute; reflexivity|].
  refine (returned_candidates_scored
            30 1000000 ranges_CH masses_CH 0 (-10 # 1, 10 # 1)%Q _ _).
  vm_compute. reflexivity.
Defined.

Lemma returned_atom_count_bounded_witness :
  exists l,
    (find_molecular_formulas 30 1000000 ranges_CH masses_CH 0 (-10 # 1, 10 # 1)%Q).2
      = Ok l
    /\ forall c, c ∈ l ->
         total_atoms (c_formula c) <> 0 /\ total_atoms (c_formula c) <= 150.
Proof.
  eexists. split; [vm_compute; reflexivity|].
  refine (returned_atom_count_bounded
            30 1000000 ranges_CH masses_CH 0 (-10 # 1, 10 # 1)%Q _ _).
  vm_compute. reflexivity.
Defined.

Lemma deviation_sign_witness :
  exists l,
    (find_molecular_formulas 30 1000000 ranges_CH masses_CH 0 (-10 # 1, 10 # 1)%Q).2
      = Ok l
    /\ forall c, c ∈ l -> (0 < c_mass c)%Q ->
         (c_mass c < 30 - 0)%Q -> (0 < c_deviation c)%Q.
Proof.
  eexists. split; [vm_compute; reflexivity|].
  intros c Hc Hpos.
  refine (proj1 (deviation_sign
                   30 1000000 ranges_CH masses_CH 0 (-10 # 1, 10 # 1)%Q _ _ c Hc Hpos)).
  vm_compute. reflexivity.
Defined.

Lemma search_complete_witness :
  exists l m,
    (find_molecular_formulas 30 1000000 ranges_CH masses_CH 0 (-10 # 1, 10 # 1)%Q).2
      = Ok l
    /\ calculate_mass methane masses_CH = Ok m
    /\ exists c, c ∈ l /\ c_formula c = methane /\ c_mass c = m.
Proof.
  assert (Hnd : NoDup (keys ranges_CH)) by distinct_keys.
  eexists _, _. split; [vm_compute; reflexivity|]. split; [vm_compute; reflexivity|].
  refine (search_complete 30 1000000 ranges_CH masses_CH 0 (-10 # 1, 10 # 1)%Q
            _ methane _ Hnd _ _ _ _ _ _ _ _ _).
  - vm_compute. reflexivity.
  - repeat constructor; simpl; lia.
  - vm_compute. discriminate.
  - vm_compute. discriminate.
  - vm_compute. reflexivity.
  - qle.
  - qle.
  - qle.
  - qle.
Defined.

Lemma zero_tolerance_exact_match_witness :
  (0 == 0)%Q
  /\ exists l,
       (find_molecular_formulas 16.03130014 0 ranges_CH masses_CH 0
          (-10 # 1, 10 # 1)%Q).2 = Ok l
       /\ l <> []
       /\ forall c, c ∈ l ->
            (c_mass c == 16.03130014 - 0)%Q /\ (c_deviation c == 0)%Q.
Proof.
  split; [reflexivity|].
  eexists. split; [vm_compute; reflexivity|]. split; [discriminate|].
  refine (zero_tolerance_exact_match
            16.03130014 0 ranges_CH masses_CH 0 (-10 # 1, 10 # 1)%Q _ _ _).
  - reflexivity.
  - vm_compute. reflexivity.
Defined.

Lemma second_sort_changes_nothing_witness :
  exists l,
    (find_molecular_formulas 30 1000000 ranges_CH masses_CH 0 (-10 # 1, 10 # 1)%Q).2
      = Ok l
    /\ sort_by_key abs_deviation l = l.
Proof.
  eexists. split; [vm_compute; reflexivity|].
  refine (second_sort_changes_nothing
            30 1000000 ranges_CH masses_CH 0 (-10 # 1, 10 # 1)%Q _ _).
  vm_compute. reflexivity.
Defined.

Lemma menu_number_selects_its_case_witness :
  NoDup (keys MolecularFormula.ionizationCases)
  /\ 1 <= 2 <= Z.of_nat (length MolecularFormula.ionizationCases)
  /\ MolecularFormula.select_ionization MolecularFormula.ionizationCases 2
     = MolecularFormula.ionizationCases !! Z.to_nat (2 - 1).
Proof.
  assert (Hnd : NoDup (keys MolecularFormula.ionizationCases)) by distinct_keys.
  assert (Hc : 1 <= 2 <= Z.of_nat (length MolecularFormula.ionizationCases))
    by (cbn; lia).
  split; [exact Hnd|]. split; [exact Hc|].
  exact (proj1 (menu_number_selects_its_case
                  MolecularFormula.ionizationCases 2 Hnd Hc)).
Defined.

Lemma menu_number_zero_wraps_witness :
  NoDup (keys MolecularFormula.ionizationCases)
  /\ - Z.of_nat (length MolecularFormula.ionizationCases) < 0 <= 0
  /\ MolecularFormula.select_ionization MolecularFormula.ionizationCases 0
     = last MolecularFormula.ionizationCases.
Proof.
  assert (Hnd : NoDup (keys MolecularFormula.ionizationCases)) by distinct_keys.
  assert (Hc : - Z.of_nat (length MolecularFormula.ionizationCases) < 0 <= 0)
    by (cbn; lia).
  split; [exact Hnd|]. split; [exact Hc|].
  exact (proj2 (proj2 (menu_number_zero_wraps
                         MolecularFormula.ionizationCases 0 Hnd Hc)) eq_refl).
Defined.

Lemma menu_number_out_of_range_witness :
  (7 <= - Z.of_nat (length MolecularFormula.ionizationCases)
   \/ Z.of_nat (length MolecularFormula.ionizationCases) < 7)
  /\ MolecularFormula.select_ionization MolecularFormula.ionizationCases 7 = None.
Proof.
  assert (Hc : 7 <= - Z.of_nat (length MolecularFormula.ionizationCases)
               \/ Z.of_nat (length MolecularFormula.ionizationCases) < 7)
    by (right; cbn; lia).
  split; [exact Hc|].
  exact (menu_number_out_of_range MolecularFormula.ionizationCases 7 Hc).
Defined.

Lemma script_fails_only_on_menu_number_witness :
  (7 <= -6 \/ 6 < 7) /\ MolecularFormula.main 500 5 7 = IndexError.
Proof.
  assert (Hc : 7 <= -6 \/ 6 < 7) by (right; lia).
  split; [exact Hc|].
  exact (proj2 (proj1 (proj2 (script_fails_only_on_menu_number 500 5 7))) Hc).
Defined.

Lemma returned_formula_str_nonempty_witness :
  exists l,
    (find_molecular_formulas 30 1000000 ranges_CH masses_CH 0 (-10 # 1, 10 # 1)%Q).2
      = Ok l
    /\ forall c, c ∈ l -> formula_str (c_formula c) <> "".
Proof.
  assert (Hnd : NoDup (keys ranges_CH)) by distinct_keys.
  assert (Hnn : Forall (fun e => 0 <= e.2.1) ranges_CH).
  { repeat constructor; simpl; lia. }
  eexists. split; [vm_compute; reflexivity|].
  refine (returned_formula_str_nonempty
            30 1000000 ranges_CH masses_CH 0 (-10 # 1, 10 # 1)%Q _ Hnd Hnn _).
  vm_compute. reflexivity.
Defined.
